(** * OpenWhispr: activation controller and audio ducking manager

    A shallow embedding of the push-to-talk key handlers of [main.js]
    (the Globe key listener on macOS and the low-level key listener on
    Windows), of the [will-quit] teardown handler, and of the
    [AudioDuckingManager] class, followed by the properties of the
    design document that can be settled on them.

    JavaScript's event loop is modelled by explicit state passing: every
    handler is a function from the variables it closes over to their new
    values and the list of commands it sends, in program order.  A handler
    that starts with [await windowManager.getActivationMode()] receives the
    awaited value in its environment record and is run from the point where
    it resumes. *)

From Stdlib Require Import ZArith Lia.
From stdpp Require Import gmap strings list.

Local Open Scope Z_scope.

(** ** Activation controller ([main.js], [startApp]) *)

Module Controller.

(** Messages the handlers send to the window manager and the renderers. *)
Inductive command : Type :=
| globe_key_pressed      (* controlPanelWindow.webContents.send("globe-key-pressed") *)
| toggle_dictation       (* mainWindow.webContents.send("toggle-dictation") *)
| showDictationPanel
| hideDictationPanel
| sendStartDictation
| sendStopDictation.

#[global] Instance command_eq_dec : EqDecision command.
Proof. solve_decision. Defined.

(** What a handler reads from its collaborators when it runs. *)
Record env : Type := Env {
  mainWindowLive : bool;            (* isLiveWindow(windowManager.mainWindow) *)
  controlPanelLive : bool;          (* isLiveWindow(windowManager.controlPanelWindow) *)
  currentHotkey : option string;    (* None: hotkeyManager.getCurrentHotkey is missing *)
  activationMode : string;          (* await windowManager.getActivationMode() *)
  now : Z                           (* Date.now() *)
}.

(** The two module-level variables of one key source
    ([globeKeyDownTime]/[globeKeyIsRecording], [winKeyDownTime]/[winKeyIsRecording])
    and the due times of the [setTimeout] callbacks not yet run. *)
Record keystate : Type := KeyState {
  keyDownTime : Z;
  isRecording : bool;
  timers : list Z
}.

Definition initial : keystate :=
  {| keyDownTime := 0; isRecording := false; timers := [] |}.

Definition MIN_HOLD_DURATION_MS : Z := 150.
Definition WIN_MIN_HOLD_DURATION_MS : Z := 150.

Definition is_push (e : env) : bool := String.eqb (activationMode e) "push".

(** [hotkeyManager.getCurrentHotkey && hotkeyManager.getCurrentHotkey() === "GLOBE"] *)
Definition hotkey_is_globe (e : env) : bool :=
  match currentHotkey e with
  | Some h => String.eqb h "GLOBE"
  | None => false
  end.

(** The callback given to [setTimeout]; both sources have the same one. *)
Definition hold_timer (s : keystate) : keystate * list command :=
  if (0 <? keyDownTime s) && negb (isRecording s)
  then ({| keyDownTime := keyDownTime s; isRecording := true; timers := timers s |},
        [sendStartDictation])
  else (s, []).

(** [globeKeyManager.on("globe-down", ...)] *)
Definition globe_down (e : env) (s : keystate) : keystate * list command :=
  let forwarded := if controlPanelLive e then [globe_key_pressed] else [] in
  if hotkey_is_globe e then
    if mainWindowLive e then
      if is_push e then
        ({| keyDownTime := now e;
            isRecording := false;
            timers := timers s ++ [now e + MIN_HOLD_DURATION_MS] |},
         forwarded ++ [showDictationPanel])
      else (s, forwarded ++ [showDictationPanel; toggle_dictation])
    else (s, forwarded)
  else (s, forwarded).

(** [globeKeyManager.on("globe-up", ...)] *)
Definition globe_up (e : env) (s : keystate) : keystate * list command :=
  if hotkey_is_globe e then
    if is_push e then
      if isRecording s then
        ({| keyDownTime := 0; isRecording := false; timers := timers s |},
         [sendStopDictation])
      else
        ({| keyDownTime := 0; isRecording := isRecording s; timers := timers s |}, [])
    else (s, [])
  else (s, []).

(** [windowsKeyManager.on("key-down", ...)] *)
Definition win_key_down (e : env) (s : keystate) : keystate * list command :=
  if mainWindowLive e then
    if is_push e then
      ({| keyDownTime := now e;
          isRecording := false;
          timers := timers s ++ [now e + WIN_MIN_HOLD_DURATION_MS] |},
       [showDictationPanel])
    else (s, [])
  else (s, []).

(** [windowsKeyManager.on("key-up", ...)] *)
Definition win_key_up (e : env) (s : keystate) : keystate * list command :=
  if mainWindowLive e then
    if is_push e then
      let wasRecording := isRecording s in
      ({| keyDownTime := 0; isRecording := false; timers := timers s |},
       if wasRecording then [sendStopDictation] else [hideDictationPanel])
    else (s, [])
  else (s, []).

(** The adapter sources that carry a hold timer. *)
Inductive source : Type := Globe | WindowsKey.

Definition hold_threshold (src : source) : Z :=
  match src with
  | Globe => MIN_HOLD_DURATION_MS
  | WindowsKey => WIN_MIN_HOLD_DURATION_MS
  end.

Definition key_down (src : source) : env -> keystate -> keystate * list command :=
  match src with Globe => globe_down | WindowsKey => win_key_down end.

Definition key_up (src : source) : env -> keystate -> keystate * list command :=
  match src with Globe => globe_up | WindowsKey => win_key_up end.

(** *** The event loop's timer queue *)

Definition is_due (t d : Z) : bool := d <=? t.

(** Runs the callback once for each entry of [due], in order. *)
Fixpoint run_callbacks (due : list Z) (s : keystate) : keystate * list command :=
  match due with
  | [] => (s, [])
  | _ :: due' =>
      let '(s1, c1) := hold_timer s in
      let '(s2, c2) := run_callbacks due' s1 in
      (s2, c1 ++ c2)
  end.

(** At time [t] the loop runs every callback whose delay has elapsed and
    drops it from the queue. *)
Definition fire_due (t : Z) (s : keystate) : keystate * list command :=
  let due := List.filter (is_due t) (timers s) in
  let pending := List.filter (fun d => negb (is_due t d)) (timers s) in
  run_callbacks due
    {| keyDownTime := keyDownTime s; isRecording := isRecording s; timers := pending |}.

Inductive key_event : Type :=
| KeyDown (e : env)
| KeyUp (e : env).

Definition event_time (ev : key_event) : Z :=
  match ev with KeyDown e | KeyUp e => now e end.

Definition handle (src : source) (ev : key_event) : keystate -> keystate * list command :=
  match ev with
  | KeyDown e => key_down src e
  | KeyUp e => key_up src e
  end.

(** One adapter event: the timers that came due first, then the handler. *)
Definition step (src : source) (ev : key_event) (s : keystate) : keystate * list command :=
  let '(s1, c1) := fire_due (event_time ev) s in
  let '(s2, c2) := handle src ev s1 in
  (s2, c1 ++ c2).

Fixpoint run (src : source) (evs : list key_event) (s : keystate) : keystate * list command :=
  match evs with
  | [] => (s, [])
  | ev :: evs' =>
      let '(s1, c1) := step src ev s in
      let '(s2, c2) := run src evs' s1 in
      (s2, c1 ++ c2)
  end.

(** One press of the key: the key-down handler, the timers that come due
    until the release, and the key-up handler. *)
Definition press_release (src : source) (ed eu : env) (s : keystate)
  : keystate * list command :=
  let '(s1, c1) := key_down src ed s in
  let '(s2, c2) := step src (KeyUp eu) s1 in
  (s2, c1 ++ c2).

Definition count (c : command) (l : list command) : nat :=
  count_occ command_eq_dec l c.

Definition is_dictation (c : command) : bool :=
  match c with
  | sendStartDictation | sendStopDictation => true
  | _ => false
  end.

(** The start and stop commands of a trace, in the order sent. *)
Definition dictation_commands (l : list command) : list command :=
  List.filter is_dictation l.

(** A session is live while the key-down time is set; this is the test
    the timer callback makes ("only start if key is still being held"). *)
Definition live (s : keystate) : bool := 0 <? keyDownTime s.

(** The handlers of [src] take their push-to-talk branch under [e]. *)
Definition push_enabled (src : source) (e : env) : Prop :=
  is_push e = true /\
  match src with
  | Globe => hotkey_is_globe e = true /\ mainWindowLive e = true
  | WindowsKey => mainWindowLive e = true
  end.

(** Environments used in the examples: push mode, Globe armed, windows up. *)
Definition push_env (t : Z) : env :=
  {| mainWindowLive := true; controlPanelLive := false;
     currentHotkey := Some "GLOBE"; activationMode := "push"; now := t |}.

End Controller.

(** ** Audio ducking manager ([src/helpers/audioDuckingManager.js]) *)

Module Ducking.

(** *** JavaScript values and string helpers *)

(** A slot of [savedVolumes]: [null] or a string. *)
Inductive saved : Type :=
| js_null
| js_str (s : string).

Inductive jsval : Type :=
| js_bool (b : bool).

(** An object literal: its properties in the order written. *)
Definition js_object : Type := list (string * jsval).

Definition keys (o : js_object) : list string := map fst o.

Fixpoint get (o : js_object) (k : string) : option jsval :=
  match o with
  | [] => None
  | (k', v) :: o' => if String.eqb k' k then Some v else get o' k
  end.

(** A promise once settled. *)
Inductive settled (A : Type) : Type :=
| resolved (a : A)
| rejected (err : string).
Arguments resolved {A} a.
Arguments rejected {A} err.

(** [Promise.all]: the values in order, or the first rejection. *)
Fixpoint promise_all {A : Type} (ps : list (settled A)) : settled (list A) :=
  match ps with
  | [] => resolved []
  | resolved a :: ps' =>
      match promise_all ps' with
      | resolved l => resolved (a :: l)
      | rejected err => rejected err
      end
  | rejected err :: _ => rejected err
  end.

(** A string holds the UTF-8 bytes of the JavaScript string it stands
    for; equality and [includes] on the bytes are those of the text. *)
Definition byte_is (n : nat) (c : Ascii.ascii) : bool := (Ascii.nat_of_ascii c =? n)%nat.

(** White space and line terminators of one byte: U+0009 to U+000D and
    U+0020. *)
Definition is_space (c : Ascii.ascii) : bool :=
  let n := Ascii.nat_of_ascii c in
  ((9 <=? n)%nat && (n <=? 13)%nat) || (n =? 32)%nat.

(** Of two bytes: U+00A0. *)
Definition is_space2 (a b : Ascii.ascii) : bool :=
  byte_is 194 a && byte_is 160 b.

(** Of three bytes: U+1680, U+2000 to U+200A, U+2028, U+2029, U+202F,
    U+205F, U+3000 and U+FEFF. *)
Definition is_space3 (a b c : Ascii.ascii) : bool :=
  let n := Ascii.nat_of_ascii c in
  (byte_is 225 a && byte_is 154 b && byte_is 128 c) ||
  (byte_is 226 a && byte_is 128 b &&
   (((128 <=? n)%nat && (n <=? 138)%nat) || (n =? 168)%nat || (n =? 169)%nat || (n =? 175)%nat)) ||
  (byte_is 226 a && byte_is 129 b && byte_is 159 c) ||
  (byte_is 227 a && byte_is 128 b && byte_is 128 c) ||
  (byte_is 239 a && byte_is 187 b && byte_is 191 c).

Fixpoint trim_start (s : string) : string :=
  match s with
  | EmptyString => EmptyString
  | String a s1 =>
      if is_space a then trim_start s1
      else
        match s1 with
        | EmptyString => s
        | String b s2 =>
            if is_space2 a b then trim_start s2
            else
              match s2 with
              | EmptyString => s
              | String c s3 => if is_space3 a b c then trim_start s3 else s
              end
        end
  end.

(** Nothing but white space is left when [trim_start] leaves nothing. *)
Fixpoint trim_end (s : string) : string :=
  match s with
  | EmptyString => EmptyString
  | String c s' =>
      match trim_start s with
      | EmptyString => EmptyString
      | _ => String c (trim_end s')
      end
  end.

(** [String.prototype.trim] *)
Definition trim (s : string) : string := trim_end (trim_start s).

(** [s.includes(needle)] *)
Fixpoint includes (s needle : string) : bool :=
  String.prefix needle s ||
  match s with
  | EmptyString => false
  | String _ s' => includes s' needle
  end.

(** *** The manager's fields, the outside world, and the effects *)

Record process : Type := Process {
  proc_binary : string;
  proc_args : list string
}.

Record manager : Type := Manager {
  duckerProcess : option process;
  isActive : bool;
  savedVolumes : gmap string saved;
  duckLevel : string;
  useAdvancedDucking : bool;
  fallbackMode : bool
}.

(** The constructor. *)
Definition new : manager :=
  {| duckerProcess := None;
     isActive := false;
     savedVolumes := <["music" := js_null]> (<["spotify" := js_null]> ∅);
     duckLevel := "default";
     useAdvancedDucking := false;
     fallbackMode := false |}.

(** What the helper process does after [spawn]. *)
Inductive proc_event : Type :=
| stdout_data (data : string)
| stderr_data (data : string)
| error_event (err : string)
| exit_event (code : Z).

(** What [exec] hands to its callback. *)
Inductive exec_result : Type :=
| exec_err (message : string)
| exec_ok (stdout : string).

(** Everything the manager reads from outside itself in one call. *)
Record world : Type := World {
  platform : string;                     (* process.platform *)
  possiblePaths : list string;           (* the candidates of getBinaryPath *)
  existsSync : string -> bool;           (* fs.existsSync *)
  spawn_throws : bool;                   (* spawn raises synchronously *)
  ducker_events : list proc_event;       (* helper events that precede the 3000 ms timer *)
  late_events : list proc_event;         (* helper events that follow the timer *)
  fallback_window : nat;                 (* listener turns taken while the fallback awaits *)
  kill_throws : bool;                    (* duckerProcess.kill raises *)
  check_result : string -> exec_result;  (* outcome of the player-state script, per app *)
  pause_result : string -> exec_result;  (* outcome of the pause script, per app *)
  play_result : string -> exec_result;   (* outcome of the play script, per app *)
  spotify_answers_first : bool           (* the Spotify probe calls back before the Music one *)
}.

(** Calls that leave the process. *)
Inductive effect : Type :=
| eff_spawn (binary : string) (args : list string)
| eff_kill (signal : string)
| eff_check (appName : string)     (* osascript: is the app running and playing? *)
| eff_pause (appName : string)     (* osascript: tell application to pause *)
| eff_play (appName : string).     (* osascript: tell application to play *)

#[global] Instance effect_eq_dec : EqDecision effect.
Proof. solve_decision. Defined.

(** A method: the new fields, the value returned, and the effects in order. *)
Definition M (A : Type) : Type := manager -> A * manager * list effect.

Definition ret {A : Type} (a : A) : M A := fun m => (a, m, []).

Definition bind {A B : Type} (c : M A) (k : A -> M B) : M B :=
  fun m =>
    let '(a, m1, e1) := c m in
    let '(b, m2, e2) := k a m1 in
    (b, m2, e1 ++ e2).

Definition emit (e : effect) : M unit := fun m => (tt, m, [e]).
Definition read {A : Type} (f : manager -> A) : M A := fun m => (f m, m, []).
Definition modify (f : manager -> manager) : M unit := fun m => (tt, f m, []).

(** The three parts of a finished call. *)
Definition value_of {A : Type} (r : A * manager * list effect) : A := fst (fst r).
Definition state_of {A : Type} (r : A * manager * list effect) : manager := snd (fst r).
Definition effects_of {A : Type} (r : A * manager * list effect) : list effect := snd r.

Notation "x <- c ;; k" := (bind c (fun x => k))
  (at level 100, c at next level, right associativity).
Notation "c ;;; k" := (bind c (fun _ => k))
  (at level 100, right associativity).

Definition set_duckerProcess (p : option process) (m : manager) : manager :=
  {| duckerProcess := p; isActive := isActive m; savedVolumes := savedVolumes m;
     duckLevel := duckLevel m; useAdvancedDucking := useAdvancedDucking m;
     fallbackMode := fallbackMode m |}.

Definition set_isActive (b : bool) (m : manager) : manager :=
  {| duckerProcess := duckerProcess m; isActive := b; savedVolumes := savedVolumes m;
     duckLevel := duckLevel m; useAdvancedDucking := useAdvancedDucking m;
     fallbackMode := fallbackMode m |}.

Definition set_fallbackMode (b : bool) (m : manager) : manager :=
  {| duckerProcess := duckerProcess m; isActive := isActive m; savedVolumes := savedVolumes m;
     duckLevel := duckLevel m; useAdvancedDucking := useAdvancedDucking m;
     fallbackMode := b |}.

Definition set_saved (key : string) (v : saved) (m : manager) : manager :=
  {| duckerProcess := duckerProcess m; isActive := isActive m;
     savedVolumes := <[key := v]> (savedVolumes m);
     duckLevel := duckLevel m; useAdvancedDucking := useAdvancedDucking m;
     fallbackMode := fallbackMode m |}.

Definition set_duckLevel (l : string) (m : manager) : manager :=
  {| duckerProcess := duckerProcess m; isActive := isActive m; savedVolumes := savedVolumes m;
     duckLevel := l; useAdvancedDucking := useAdvancedDucking m;
     fallbackMode := fallbackMode m |}.

Definition set_useAdvancedDucking (b : bool) (m : manager) : manager :=
  {| duckerProcess := duckerProcess m; isActive := isActive m; savedVolumes := savedVolumes m;
     duckLevel := duckLevel m; useAdvancedDucking := b;
     fallbackMode := fallbackMode m |}.

(** *** The methods *)

Section Methods.

Variable w : world.

Definition is_darwin : bool := String.eqb (platform w) "darwin".

(** [getBinaryPath]: the first candidate that exists, else [null]. *)
Definition getBinaryPath : option string :=
  List.find (existsSync w) (possiblePaths w).

Definition isNativeDuckingAvailable : bool :=
  if negb is_darwin then false
  else match getBinaryPath with Some _ => true | None => false end.

(** [stopNativeDucking]: a raising [kill] is caught; the handle is dropped
    either way. *)
Definition stopNativeDucking : M unit :=
  p <- read duckerProcess ;;
  match p with
  | Some _ =>
      emit (eff_kill "SIGTERM") ;;;
      (if kill_throws w then ret tt (* caught and logged *) else ret tt) ;;;
      modify (set_duckerProcess None)
  | None => ret tt
  end.

(** The variables of one [startNativeDucking] call that its listeners
    share: the [started] flag and the value its promise resolved with
    (a promise keeps the first). *)
Record attempt : Type := Attempt {
  started : bool;
  resolution : option bool
}.

(** [let started = false], promise pending. *)
Definition fresh_attempt : attempt := {| started := false; resolution := None |}.

Definition resolve (v : bool) (a : attempt) : attempt :=
  {| started := started a;
     resolution := match resolution a with Some r => Some r | None => Some v end |}.

Definition set_started (a : attempt) : attempt :=
  {| started := true; resolution := resolution a |}.

(** The listeners on [stdout], [stderr], ["error"] and ["exit"]. *)
Definition on_event (ev : proc_event) (a : attempt) : M attempt :=
  match ev with
  | stdout_data data =>
      let output := trim data in
      if includes output "DUCKING_STARTED" && negb (started a) then
        modify (set_isActive true) ;;;
        modify (set_fallbackMode false) ;;;
        ret (resolve true (set_started a))
      else ret a
  | stderr_data _ => ret a
  | error_event _ =>
      modify (set_duckerProcess None) ;;;
      ret (if negb (started a) then resolve false a else a)
  | exit_event _ =>
      modify (set_duckerProcess None) ;;;
      modify (set_isActive false) ;;;
      ret (if negb (started a) then resolve false a else a)
  end.

(** The 3000 ms [setTimeout] callback. *)
Definition on_timeout (a : attempt) : M attempt :=
  if negb (started a) then
    stopNativeDucking ;;; ret (resolve false a)
  else ret a.

(** One turn of the event loop that runs a listener of the helper: an
    event of the process, or the 3000 ms timer. *)
Inductive turn : Type :=
| helper_event (ev : proc_event)
| timer_fires.

Definition on_turn (t : turn) (a : attempt) : M attempt :=
  match t with
  | helper_event ev => on_event ev a
  | timer_fires => on_timeout a
  end.

(** The turns of one attempt in the order they are taken: the events
    that precede the timer, the timer, the events that follow it. *)
Definition stream : list turn :=
  map helper_event (ducker_events w) ++ timer_fires :: map helper_event (late_events w).

(** The turns are taken until the promise resolves; the caller resumes
    at that point, and the turns not yet taken are still to come. *)
Fixpoint deliver (ts : list turn) (a : attempt) : M (attempt * list turn) :=
  match ts with
  | [] => ret (a, [])
  | t :: ts' =>
      a' <- on_turn t a ;;
      match resolution a' with
      | Some _ => ret (a', ts')
      | None => deliver ts' a'
      end
  end.

(** The listeners stay attached; these are the turns taken with no
    caller waiting on the promise. *)
Fixpoint run_listeners (ts : list turn) (a : attempt) : M attempt :=
  match ts with
  | [] => ret a
  | t :: ts' => a' <- on_turn t a ;; run_listeners ts' a'
  end.

(** What an attempt leaves behind when its promise resolves: the
    variables its listeners share and the turns they have yet to take. *)
Record listeners : Type := Listeners {
  closure : attempt;
  pending : list turn
}.

(** No helper was spawned. *)
Definition no_listeners : listeners := {| closure := fresh_attempt; pending := [] |}.

Definition ducker_args (level : string) (advanced : bool) : list string :=
  ["start"; "--level"; level] ++ (if advanced then ["--advanced"] else [])%string.

(** [startNativeDucking]: the value awaited by the caller, and the
    listeners left on the helper. *)
Definition startNativeDucking (level : string) (advanced : bool) : M (bool * listeners) :=
  match getBinaryPath with
  | None => ret (false, no_listeners)
  | Some binaryPath =>
      let args := ducker_args level advanced in
      if spawn_throws w then ret (false, no_listeners)
      else
        emit (eff_spawn binaryPath args) ;;;
        modify (set_duckerProcess (Some (Process binaryPath args))) ;;;
        left <- deliver stream fresh_attempt ;;
        ret (match resolution (fst left) with Some r => r | None => false end,
             {| closure := fst left; pending := snd left |})
  end.

Definition saved_was_playing (key : string) (m : manager) : bool :=
  match savedVolumes m !! key with
  | Some (js_str s) => String.eqb s "was_playing"
  | _ => false
  end.

(** The part of [pauseMusicApp] that runs at the call: the probe is sent. *)
Definition pause_probe (appName : string) : M unit :=
  emit (eff_check appName).

(** The callback of the probe and, nested in it, the callback of the
    pause; every path calls [resolve]. *)
Definition pause_callback (appName key : string) : M (settled bool) :=
  match check_result w appName with
  | exec_err _ => ret (resolved false)
  | exec_ok stdout =>
      let state := trim stdout in
      if String.eqb state "playing" then
        emit (eff_pause appName) ;;;
        match pause_result w appName with
        | exec_err _ => ret (resolved false)
        | exec_ok _ =>
            modify (set_saved key (js_str "was_playing")) ;;;
            ret (resolved true)
        end
      else ret (resolved false)
  end.

(** [pauseMusicApp], from the call to the settled promise. *)
Definition pauseMusicApp (appName key : string) : M (settled bool) :=
  pause_probe appName ;;; pause_callback appName key.

(** [startAppleScriptDucking] while the listeners [ls] of a failed
    attempt are still attached.  Both probes are sent at the call.  While
    the method awaits, the listeners take [fallback_window] of their
    pending turns and the probes call back, in the order the world
    gives.  The listeners write [isActive], [fallbackMode] and
    [duckerProcess] and the callbacks write [savedVolumes], so a listener
    turn and a callback commute; the listener turns are run first. *)
Definition startAppleScriptDucking_during (ls : listeners) : M bool :=
  if negb is_darwin then ret false
  else
    modify (set_fallbackMode true) ;;;
    pause_probe "Music" ;;;
    pause_probe "Spotify" ;;;
    run_listeners (take (fallback_window w) (pending ls)) (closure ls) ;;;
    promises <-
      (if spotify_answers_first w then
         p2 <- pause_callback "Spotify" "spotify" ;;
         p1 <- pause_callback "Music" "music" ;;
         ret [p1; p2]
       else
         p1 <- pause_callback "Music" "music" ;;
         p2 <- pause_callback "Spotify" "spotify" ;;
         ret [p1; p2]) ;;
    match promise_all promises with
    | resolved results =>
        let anyPaused := existsb (fun r => r) results in
        modify (set_isActive (anyPaused || true)) ;;;
        ret true
    | rejected _ => ret false
    end.

(** [startAppleScriptDucking] with no helper listener attached. *)
Definition startAppleScriptDucking : M bool :=
  startAppleScriptDucking_during no_listeners.

(** The argument of [startDucking] and [configure]. *)
Record options : Type := Options {
  level : option string;      (* None: undefined *)
  advanced : option bool      (* None: undefined *)
}.

Definition truthy (s : option string) : option string :=
  match s with
  | Some EmptyString => None
  | other => other
  end.

(** [startDucking] *)
Definition startDucking (o : options) : M bool :=
  active <- read isActive ;;
  if active then ret true
  else
    lvl <- read (fun m => default (duckLevel m) (truthy (level o))) ;;
    adv <- read (fun m => default (useAdvancedDucking m) (advanced o)) ;;
    if is_darwin then
      native <- startNativeDucking lvl adv ;;
      let nativeSuccess := fst native in
      if nativeSuccess then ret true
      else startAppleScriptDucking_during (snd native)
    else startAppleScriptDucking.

(** [resumeMusicApp] *)
Definition resumeMusicApp (appName key : string) : M unit :=
  was <- read (saved_was_playing key) ;;
  if negb was then ret tt
  else
    emit (eff_play appName) ;;;
    match play_result w appName with
    | exec_err _ => ret tt     (* logged *)
    | exec_ok _ => ret tt      (* logged *)
    end ;;;
    modify (set_saved key js_null).

(** [stopDucking] *)
Definition stopDucking : M unit :=
  active <- read isActive ;;
  if negb active then ret tt
  else
    fb <- read fallbackMode ;;
    (if fb then
       resumeMusicApp "Music" "music" ;;;
       resumeMusicApp "Spotify" "spotify"
     else stopNativeDucking) ;;;
    modify (set_isActive false) ;;;
    modify (set_fallbackMode false).

(** [getStatus] *)
Definition getStatus : M js_object :=
  a <- read isActive ;;
  f <- read fallbackMode ;;
  ret [("isActive"%string, js_bool a);
       ("fallbackMode"%string, js_bool f);
       ("nativeAvailable"%string, js_bool isNativeDuckingAvailable)].

(** [configure] *)
Definition configure (o : options) : M unit :=
  match truthy (level o) with
  | Some l => modify (set_duckLevel l)
  | None => ret tt
  end ;;;
  match advanced o with
  | Some b => modify (set_useAdvancedDucking b)
  | None => ret tt
  end.

(** [cleanup] *)
Definition cleanup : M unit := stopDucking.

End Methods.

(** The media players the fallback knows. *)
Definition known_players : list string := ["Music"; "Spotify"]%string.

Definition is_play (e : effect) : bool :=
  match e with eff_play _ => true | _ => false end.

Definition is_osascript (e : effect) : bool :=
  match e with
  | eff_check _ | eff_pause _ | eff_play _ => true
  | _ => false
  end.


(** The probe of [appName] answered "playing". *)
Definition playing (w : world) (appName : string) : bool :=
  match check_result w appName with
  | exec_ok stdout => String.eqb (trim stdout) "playing"
  | exec_err _ => false
  end.

(** The probe answered "playing" and the pause script ran without error. *)
Definition pause_succeeds (w : world) (appName : string) : bool :=
  playing w appName &&
  match pause_result w appName with
  | exec_ok _ => true
  | exec_err _ => false
  end.

(** A helper event that neither confirms the start nor ends the attempt. *)
Definition quiet (ev : proc_event) : bool :=
  match ev with
  | stdout_data data => negb (includes (trim data) "DUCKING_STARTED")
  | stderr_data _ => true
  | error_event _ | exit_event _ => false
  end.

(** [savedVolumes] after the callbacks of the two probes, written in the
    order Music, Spotify (the two writes commute). *)
Definition paused (w : world) (m : manager) : manager :=
  let m1 := if pause_succeeds w "Music"
            then set_saved "music" (js_str "was_playing") m else m in
  if pause_succeeds w "Spotify"
  then set_saved "spotify" (js_str "was_playing") m1 else m1.

(** The pause scripts the callbacks run, in the order they run them. *)
Definition pause_scripts (w : world) : list effect :=
  let music := if playing w "Music" then [eff_pause "Music"] else [] in
  let spotify := if playing w "Spotify" then [eff_pause "Spotify"] else [] in
  if spotify_answers_first w then spotify ++ music else music ++ spotify.

(** What listener turns may do to the manager: they leave
    [savedVolumes] and the configured defaults alone, send nothing but
    SIGTERM, and send nothing at all when no helper is held; turns that
    do not confirm a start leave [fallbackMode] alone and do not
    activate an inactive manager. *)
Definition listener_step (calmly : bool) (m m' : manager) (e : list effect) : Prop :=
  savedVolumes m' = savedVolumes m /\
  duckLevel m' = duckLevel m /\
  useAdvancedDucking m' = useAdvancedDucking m /\
  (forall x, In x e -> x = eff_kill "SIGTERM") /\
  (calmly = true -> fallbackMode m' = fallbackMode m) /\
  (calmly = true -> isActive m = false -> isActive m' = false) /\
  (duckerProcess m = None -> duckerProcess m' = None /\ e = []).

(** A chunk of the helper's output that holds the start marker. *)
Definition confirming (ev : proc_event) : bool :=
  match ev with
  | stdout_data data => includes (trim data) "DUCKING_STARTED"
  | _ => false
  end.

(** A listener turn that does not confirm a start. *)
Definition calm (t : turn) : bool :=
  match t with
  | helper_event ev => negb (confirming ev)
  | timer_fires => true
  end.

Definition quiet_turn (t : turn) : bool :=
  match t with
  | helper_event ev => quiet ev
  | timer_fires => false
  end.

(** The turns still to come once the promise of a spawned helper has
    resolved: those that follow the first turn that is not quiet. *)
Fixpoint after_resolution (ts : list turn) : list turn :=
  match ts with
  | [] => []
  | t :: ts' => if quiet_turn t then after_resolution ts' else ts'
  end.

(** The listener turns taken while the fallback awaits its scripts. *)
Definition handled_during_fallback (w : world) : list turn :=
  match getBinaryPath w with
  | None => []
  | Some _ =>
      if spawn_throws w then []
      else take (fallback_window w) (after_resolution (stream w))
  end.

(** The helper does not deliver the start marker while the fallback is
    under way. *)
Definition no_late_confirmation (w : world) : Prop :=
  forallb calm (handled_during_fallback w) = true.

(** The ways a native attempt goes without a confirmation: the binary is
    missing, [spawn] raises, nothing confirming arrives before the timer,
    or the helper reports an error or exits first. *)
Inductive native_failure (w : world) : Prop :=
| no_binary :
    getBinaryPath w = None -> native_failure w
| spawn_raises :
    spawn_throws w = true -> native_failure w
| confirmation_timeout :
    forallb quiet (ducker_events w) = true -> native_failure w
| spawn_error (pre post : list proc_event) (err : string) :
    ducker_events w = pre ++ error_event err :: post ->
    forallb quiet pre = true -> native_failure w
| early_exit (pre post : list proc_event) (code : Z) :
    ducker_events w = pre ++ exit_event code :: post ->
    forallb quiet pre = true -> native_failure w.

(** *** Worlds and states used in the examples *)

Definition LF : string := String (Ascii.ascii_of_nat 10) EmptyString.

(** macOS with the helper binary installed; the helper prints nothing
    before the 3000 ms timer, and its exit after the SIGTERM is seen
    while the fallback awaits.  Music is playing and can be paused, the
    Spotify probe fails, and the play script fails. *)
Definition mac_silent_helper : world :=
  {| platform := "darwin";
     possiblePaths := ["/Applications/OpenWhispr.app/Contents/Resources/bin/macos-audio-ducker"%string];
     existsSync := fun _ => true;
     spawn_throws := false;
     ducker_events := [];
     late_events := [exit_event 143];
     fallback_window := 1;
     kill_throws := false;
     check_result := fun app =>
       if String.eqb app "Music" then exec_ok ("playing" +:+ LF)
       else exec_err "execution error";
     pause_result := fun _ => exec_ok "";
     play_result := fun _ => exec_err "execution error";
     spotify_answers_first := false |}.

(** The same machine with a helper that confirms. *)
Definition mac_confirming_helper : world :=
  {| platform := "darwin";
     possiblePaths := possiblePaths mac_silent_helper;
     existsSync := fun _ => true;
     spawn_throws := false;
     ducker_events := [stdout_data ("DUCKING_STARTED" +:+ LF)];
     late_events := [];
     fallback_window := 0;
     kill_throws := false;
     check_result := check_result mac_silent_helper;
     pause_result := pause_result mac_silent_helper;
     play_result := play_result mac_silent_helper;
     spotify_answers_first := false |}.

(** The same machine with a helper that is slow to start: nothing has
    been read from it when the 3000 ms timer fires, and the start marker
    it printed, its answer to the SIGTERM and its exit are handled while
    the fallback awaits. *)
Definition mac_late_confirmation : world :=
  {| platform := "darwin";
     possiblePaths := possiblePaths mac_silent_helper;
     existsSync := fun _ => true;
     spawn_throws := false;
     ducker_events := [];
     late_events := [stdout_data ("DUCKING_STARTED" +:+ LF);
                     stdout_data ("DUCKING_STOPPED" +:+ LF);
                     exit_event 0];
     fallback_window := 3;
     kill_throws := false;
     check_result := check_result mac_silent_helper;
     pause_result := pause_result mac_silent_helper;
     play_result := play_result mac_silent_helper;
     spotify_answers_first := false |}.

(** macOS without the binary, where every script fails. *)
Definition mac_scripts_fail : world :=
  {| platform := "darwin";
     possiblePaths := possiblePaths mac_silent_helper;
     existsSync := fun _ => false;
     spawn_throws := false;
     ducker_events := [];
     late_events := [];
     fallback_window := 0;
     kill_throws := false;
     check_result := fun _ => exec_err "execution error";
     pause_result := fun _ => exec_err "execution error";
     play_result := fun _ => exec_err "execution error";
     spotify_answers_first := true |}.

(** A Windows machine. *)
Definition windows_pc : world :=
  {| platform := "win32";
     possiblePaths := [];
     existsSync := fun _ => false;
     spawn_throws := false;
     ducker_events := [];
     late_events := [];
     fallback_window := 0;
     kill_throws := false;
     check_result := fun _ => exec_err "osascript: command not found";
     pause_result := fun _ => exec_err "osascript: command not found";
     play_result := fun _ => exec_err "osascript: command not found";
     spotify_answers_first := false |}.

Definition no_options : options := {| level := None; advanced := None |}.

(** The manager after a fallback start that paused Music. *)
Definition ducking_fallback : manager :=
  state_of (startDucking mac_silent_helper no_options new).

(** The manager after a confirmed native start. *)
Definition ducking_native : manager :=
  state_of (startDucking mac_confirming_helper no_options new).

End Ducking.



(** ** Teardown ([main.js], [app.on("will-quit", ...)]) *)

Module Teardown.

(** Calls the handler makes on the other managers. *)
Inductive action : Type :=
| hotkeyManager_unregisterAll
| globalShortcut_unregisterAll
| globeKeyManager_stop
| windowsKeyManager_stop
| updateManager_cleanup
| whisperManager_stopServer
| parakeetManager_stopServer
| modelManager_stopServer.

#[global] Instance action_eq_dec : EqDecision action.
Proof. solve_decision. Defined.

(** The module-level manager variables: [false]/[None] is [null]. *)
Record app_state : Type := AppState {
  hotkeyManager : bool;
  globeKeyManager : bool;
  windowsKeyManager : bool;
  updateManager : bool;
  whisperManager : bool;
  parakeetManager : bool;
  audioDuckingManager : option Ducking.manager
}.

(** The handler: the calls it makes, the manager variables afterwards and
    the effects of the ducking manager's methods it runs (it runs none). *)
Definition will_quit (a : app_state) : app_state * list action * list Ducking.effect :=
  let acts :=
    (if hotkeyManager a then [hotkeyManager_unregisterAll] else [globalShortcut_unregisterAll]) ++
    (if globeKeyManager a then [globeKeyManager_stop] else []) ++
    (if windowsKeyManager a then [windowsKeyManager_stop] else []) ++
    (if updateManager a then [updateManager_cleanup] else []) ++
    (if whisperManager a then [whisperManager_stopServer] else []) ++
    (if parakeetManager a then [parakeetManager_stopServer] else []) ++
    [modelManager_stopServer] in
  (a, acts, []).

(** Every manager created, ducking natively when the app quits. *)
Definition quitting_while_ducking : app_state :=
  {| hotkeyManager := true; globeKeyManager := true; windowsKeyManager := true;
     updateManager := true; whisperManager := true; parakeetManager := true;
     audioDuckingManager := Some Ducking.ducking_native |}.

End Teardown.


(** ** The native helper ([resources/macos-audio-ducker.swift]) *)

Module Helper.

(** [AudioDucker.DuckingLevel] *)
Inductive DuckingLevel : Type :=
| level_min
| level_default
| level_mid
| level_max.

(** [DuckingLevel(rawValue:)] *)
Definition rawValue (s : string) : option DuckingLevel :=
  if String.eqb s "min" then Some level_min
  else if String.eqb s "default" then Some level_default
  else if String.eqb s "mid" then Some level_mid
  else if String.eqb s "max" then Some level_max
  else None.

(** The option loop of the [start] command, from [args[i]] on. *)
Fixpoint parse_options (args : list string) (level : DuckingLevel) (advancedDucking : bool)
  : DuckingLevel * bool :=
  match args with
  | [] => (level, advancedDucking)
  | a :: rest =>
      if String.eqb a "--level" then
        match rest with
        | [] => (level, advancedDucking)
        | v :: rest' =>
            parse_options rest'
              (match rawValue v with Some l => l | None => level end)
              advancedDucking
        end
      else if String.eqb a "--advanced" then parse_options rest level true
      else parse_options rest level advancedDucking
  end.

(** What the audio engine does when asked to start. *)
Inductive engine_result : Type :=
| engine_started
| engine_failed (localizedDescription : string).

(** One write of the process; [print] and the [fputs] calls all end the
    text with a newline, which [event_of] adds. *)
Inductive output : Type :=
| to_stdout (text : string)
| to_stderr (text : string).

(** The text of [printUsage()]. *)
Definition usage : string :=
  String.concat Ducking.LF
    ["Usage: macos-audio-ducker <command> [options]";
     "";
     "Commands:";
     "  start   Start audio ducking";
     "  stop    Stop audio ducking (sends signal to running instance)";
     "";
     "Options for 'start':";
     "  --level <min|default|mid|max>   Ducking level (default: default)";
     "  --advanced                       Enable advanced ducking (dynamic based on voice)";
     "";
     "Output:";
     "  DUCKING_STARTED   Ducking is now active";
     "  DUCKING_STOPPED   Ducking has stopped";
     "  ERROR: <message>  An error occurred"]%string.

Definition printUsage : list output := [to_stdout usage].

Inductive status : Type :=
| exited (code : Z)
| running (level : DuckingLevel) (advancedDucking : bool).   (* RunLoop.main.run() *)

(** [AudioDucker.startDucking] on a new [AudioDucker]: what it writes, and
    whether it succeeded. *)
Definition ducker_start (engine : engine_result) : list output * bool :=
  match engine with
  | engine_started => ([], true)
  | engine_failed description => ([to_stderr ("ERROR: " +:+ description)], false)
  end.

(** [main()]: [args] is [CommandLine.arguments], program name first. *)
Definition main (args : list string) (engine : engine_result) : list output * status :=
  match args with
  | _ :: command :: options =>
      if String.eqb command "start" then
        let '(level, advancedDucking) := parse_options options level_default false in
        let '(written, ok) := ducker_start engine in
        if ok then (written ++ [to_stdout "DUCKING_STARTED"], running level advancedDucking)
        else (written ++ [to_stderr "ERROR: Failed to start audio ducking"], exited 1)
      else if String.eqb command "stop" then
        ([to_stdout "Send SIGTERM to the running macos-audio-ducker process to stop ducking"],
         exited 0)
      else if String.eqb command "--help" || String.eqb command "-h" then
        (printUsage, exited 0)
      else
        (to_stderr ("Unknown command: " +:+ command) :: printUsage, exited 1)
  | _ => (printUsage, exited 1)
  end.

(** The SIGTERM and SIGINT handlers installed once ducking has started. *)
Definition on_signal (st : status) : list output * status :=
  match st with
  | running _ _ => ([to_stdout "DUCKING_STOPPED"], exited 0)
  | exited code => ([], exited code)
  end.

(** The process as its parent sees it: one event per write, then the exit. *)
Definition event_of (o : output) : Ducking.proc_event :=
  match o with
  | to_stdout text => Ducking.stdout_data (text +:+ Ducking.LF)
  | to_stderr text => Ducking.stderr_data (text +:+ Ducking.LF)
  end.

Definition events (r : list output * status) : list Ducking.proc_event :=
  map event_of (fst r) ++
  match snd r with
  | exited code => [Ducking.exit_event code]
  | running _ _ => []
  end.

End Helper.

(** ** The IPC handlers of the ducking manager
    ([src/helpers/ipcHandlers.js], ["duck-audio"] to ["configure-ducking"]) *)

Module Ipc.
Import Ducking.

(** [{ success }] or [{ success, error }] *)
Record reply : Type := Reply {
  success : bool;
  error : option string
}.

Definition not_available : reply :=
  {| success := false; error := Some "Audio ducking manager not available"%string |}.

(** A handler: its answer, [this.audioDuckingManager] afterwards, and the
    effects of the methods it ran.  The methods do not raise, so the
    [catch] branches are not reached. *)
Definition handler (A : Type) : Type :=
  option manager -> A * option manager * list effect.

(** ["duck-audio"] *)
Definition duck_audio (w : world) (o : options) : handler reply :=
  fun mgr =>
    match mgr with
    | None => (not_available, None, [])
    | Some m =>
        let '(ok, m', effs) := startDucking w o m in
        ({| success := ok; error := None |}, Some m', effs)
    end.

(** ["restore-audio"] *)
Definition restore_audio (w : world) : handler reply :=
  fun mgr =>
    match mgr with
    | None => (not_available, None, [])
    | Some m =>
        let '(_, m', effs) := stopDucking w m in
        ({| success := true; error := None |}, Some m', effs)
    end.

(** ["get-ducking-status"] *)
Definition get_ducking_status (w : world) : handler js_object :=
  fun mgr =>
    match mgr with
    | None =>
        ([("isActive"%string, js_bool false);
          ("fallbackMode"%string, js_bool false);
          ("nativeAvailable"%string, js_bool false)], None, [])
    | Some m =>
        let '(o, m', effs) := getStatus w m in (o, Some m', effs)
    end.

(** ["configure-ducking"] *)
Definition configure_ducking (o : options) : handler reply :=
  fun mgr =>
    match mgr with
    | None => (not_available, None, [])
    | Some m =>
        let '(_, m', effs) := configure o m in
        ({| success := true; error := None |}, Some m', effs)
    end.

End Ipc.

(** ** The Windows key listener's life cycle
    ([main.js], the [win32] branch of [startApp], and the
    ["set-hotkey-listening-mode"] handler of [ipcHandlers.js]) *)

Module Listener.

(** Calls on the key listener, the shortcut registry and the GNOME
    keybinding manager. *)
Inductive action : Type :=
| setHotkeyListeningMode (enabled : bool)
| listener_start (hotkey : string)        (* windowsKeyManager.start(hotkey) *)
| listener_stop                           (* windowsKeyManager.stop() *)
| shortcut_register (hotkey : string)     (* globalShortcut.register(hotkey, callback) *)
| shortcut_unregister (hotkey : string)   (* globalShortcut.unregister(hotkey) *)
| gnome_register (keybinding : string)    (* gnomeManager.registerKeybinding(keybinding) *)
| gnome_unregister                        (* gnomeManager.unregisterKeybinding() *)
| set_currentHotkey (hotkey : string).    (* hotkeyManager.currentHotkey = hotkey *)

#[global] Instance action_eq_dec : EqDecision action.
Proof. solve_decision. Defined.

(** A hotkey as JavaScript has it: [None] is [null] or [undefined]. *)
Definition truthy (hotkey : option string) : bool :=
  match hotkey with
  | None => false
  | Some EmptyString => false
  | Some _ => true
  end.

(** [isValidHotkey] *)
Definition isValidHotkey (hotkey : option string) : bool :=
  match hotkey with
  | None => false
  | Some h =>
      if negb (truthy (Some h)) then false
      else if String.eqb h "GLOBE" then false
      else true
  end.

Definition is_push_mode (activationMode : string) : bool := String.eqb activationMode "push".

(** [startWindowsKeyListener], run 3000 ms after startup. *)
Definition startWindowsKeyListener
    (mainWindowLive : bool) (activationMode : string) (currentHotkey : option string)
  : list action :=
  if negb mainWindowLive then []
  else if is_push_mode activationMode then
    match currentHotkey with
    | Some h => if isValidHotkey currentHotkey then [listener_start h] else []
    | None => []
    end
  else [].

(** [ipcMain.on("activation-mode-changed", ...)] *)
Definition activation_mode_changed (mode : string) (currentHotkey : option string)
  : list action :=
  if is_push_mode mode then
    match currentHotkey with
    | Some h => if isValidHotkey currentHotkey then [listener_start h] else []
    | None => []
    end
  else [listener_stop].

(** [ipcMain.on("hotkey-changed", ...)] *)
Definition hotkey_changed
    (hotkey : option string) (mainWindowLive : bool) (activationMode : string)
  : list action :=
  if negb mainWindowLive then []
  else if is_push_mode activationMode then
    listener_stop ::
    match hotkey with
    | Some h => if isValidHotkey hotkey then [listener_start h] else []
    | None => []
    end
  else [].

(** What ["set-hotkey-listening-mode"] reads. *)
Record capture_env : Type := CaptureEnv {
  getCurrentHotkey : option string;        (* hotkeyManager.getCurrentHotkey() *)
  is_win32 : bool;                         (* process.platform === "win32" *)
  has_windowsKeyManager : bool;
  isUsingGnome : bool;                     (* hotkeyManager.isUsingGnome() *)
  has_gnomeManager : bool;
  activationMode : string;                 (* await windowManager.getActivationMode() *)
  isRegistered : string -> bool;           (* globalShortcut.isRegistered *)
  convertToGnomeFormat : string -> string; (* GnomeShortcutManager.convertToGnomeFormat *)
  registerKeybinding_ok : bool             (* what gnomeManager.registerKeybinding resolves to *)
}.

(** The hotkey the exit branch works with: the new one when capture ends
    with one, else the current one. *)
Definition effectiveHotkey (e : capture_env) (enabled : bool) (newHotkey : option string)
  : option string :=
  if negb enabled && truthy newHotkey then newHotkey else getCurrentHotkey e.

Definition not_globe (hotkey : option string) : bool :=
  match hotkey with
  | Some h => truthy hotkey && negb (String.eqb h "GLOBE")
  | None => false
  end.

Definition with_hotkey (hotkey : option string) (f : string -> list action) : list action :=
  match hotkey with
  | Some h => f h
  | None => []
  end.

(** ["set-hotkey-listening-mode"]; it always answers [{ success: true }]. *)
Definition set_hotkey_listening_mode
    (e : capture_env) (enabled : bool) (newHotkey : option string) : list action :=
  let effective := effectiveHotkey e enabled newHotkey in
  setHotkeyListeningMode enabled ::
  if enabled then
    (if not_globe (getCurrentHotkey e)
     then with_hotkey (getCurrentHotkey e) (fun h => [shortcut_unregister h]) else []) ++
    (if is_win32 e && has_windowsKeyManager e then [listener_stop] else []) ++
    (if isUsingGnome e && has_gnomeManager e then [gnome_unregister] else [])
  else
    (if not_globe effective
     then with_hotkey effective
            (fun h => if negb (isRegistered e h) then [shortcut_register h] else [])
     else []) ++
    (if is_win32 e && has_windowsKeyManager e
     then if is_push_mode (activationMode e) && not_globe effective
          then with_hotkey effective (fun h => [listener_start h]) else []
     else []) ++
    (if isUsingGnome e && has_gnomeManager e && truthy effective
     then with_hotkey effective
            (fun h => gnome_register (convertToGnomeFormat e h) ::
                      if registerKeybinding_ok e then [set_currentHotkey h] else [])
     else []).



End Listener.

(** ** Start-up glue ([main.js]: [setupProductionPath] and the Globe
    listener's error handler) *)

Module Startup.

Definition commonPaths : list string :=
  ["/usr/local/bin"; "/opt/homebrew/bin"; "/usr/bin"; "/bin"; "/usr/sbin"; "/sbin"]%string.

(** [Array.prototype.join] *)
Fixpoint join (sep : string) (l : list string) : string :=
  match l with
  | [] => EmptyString
  | [x] => x
  | x :: rest => x +:+ sep +:+ join sep rest
  end.

(** [process.env.PATH || ""] *)
Definition or_empty (v : option string) : string :=
  match v with Some p => p | None => EmptyString end.

Definition pathsToAdd (currentPath : string) : list string :=
  List.filter (fun p => negb (Ducking.includes currentPath p)) commonPaths.

(** [setupProductionPath]: the new value of [process.env.PATH].
    [node_env] is [process.env.NODE_ENV], [None] when unset. *)
Definition setupProductionPath
    (platform : string) (node_env : option string) (PATH : option string) : option string :=
  if String.eqb platform "darwin" &&
     negb (match node_env with Some v => String.eqb v "development" | None => false end)
  then
    let currentPath := or_empty PATH in
    let toAdd := pathsToAdd currentPath in
    if (0 <? length toAdd)%nat
    then Some (currentPath +:+ ":" +:+ join ":" toAdd)
    else PATH
  else PATH.

(** The argument of [dialog.showMessageBox]. *)
Record message_box : Type := MessageBox {
  box_type : string;
  box_title : string;
  box_message : string;
  box_detail : string
}.

Definition unknown_error : string :=
  "Unknown error occurred while starting the Globe listener.".

(** [error?.message || "Unknown error ..."] *)
Definition error_message (message : option string) : string :=
  match message with
  | Some EmptyString | None => unknown_error
  | Some m => m
  end.

Definition detailLines (development : bool) (message : option string) : list string :=
  [error_message message;
   "The Globe key shortcut will remain disabled; existing keyboard shortcuts continue to work."%string]
  ++ [if development
      then "Run `npm run compile:globe` and rebuild the app to regenerate the listener binary."%string
      else "Try reinstalling OpenWhispr or contact support if the issue persists."%string].

(** [globeKeyManager.on("error", ...)]: the new [globeKeyAlertShown] and
    the boxes shown. *)
Definition globe_error (development : bool) (message : option string) (globeKeyAlertShown : bool)
  : bool * list message_box :=
  if globeKeyAlertShown then (globeKeyAlertShown, [])
  else
    (true,
     [{| box_type := "warning";
         box_title := "Globe Hotkey Unavailable";
         box_message := "OpenWhispr could not activate the Globe key hotkey.";
         box_detail := join (Ducking.LF +:+ Ducking.LF) (detailLines development message) |}]).

(** The handler over a series of error events. *)
Fixpoint globe_errors (development : bool) (errors : list (option string)) (shown : bool)
  : bool * list message_box :=
  match errors with
  | [] => (shown, [])
  | err :: rest =>
      let '(shown1, boxes1) := globe_error development err shown in
      let '(shown2, boxes2) := globe_errors development rest shown1 in
      (shown2, boxes1 ++ boxes2)
  end.

End Startup.

(** ** States and worlds of the ducking manager's life cycle *)

Module Lifecycle.
Import Ducking.

(** The helper confirms: the first event that is not quiet is a chunk of
    standard output holding the start marker. *)
Definition confirms (w : world) : Prop :=
  exists pre data post,
    ducker_events w = pre ++ stdout_data data :: post /\
    forallb quiet pre = true /\
    includes (trim data) "DUCKING_STARTED" = true.

(** The manager at rest, as the constructor leaves it but for the
    configured defaults. *)
Definition at_rest (m : manager) : Prop :=
  isActive m = false /\ fallbackMode m = false /\ duckerProcess m = None /\
  savedVolumes m !! "music"%string = Some js_null /\
  savedVolumes m !! "spotify"%string = Some js_null.

(** What holds of the fields between two calls: an inactive manager is
    out of fallback mode and holds no helper, a manager in fallback mode
    holds no helper, and a slot of [savedVolumes] says "was_playing" only
    for the two known keys and only while the manager is active in
    fallback mode. *)
Definition well_formed (m : manager) : Prop :=
  (isActive m = false -> fallbackMode m = false /\ duckerProcess m = None) /\
  (fallbackMode m = true -> duckerProcess m = None) /\
  (forall key, saved_was_playing key m = true ->
     (key = "music"%string \/ key = "spotify"%string) /\
     isActive m = true /\ fallbackMode m = true).

(** The manager after the scripting fallback has run over [m] with no
    listener turn in between. *)
Definition after_fallback (w : world) (m : manager) : manager :=
  set_isActive true (paused w (set_fallbackMode true m)).

(** The scripts the fallback runs, in order: both probes, then the pause
    scripts of the callbacks. *)
Definition fallback_scripts (w : world) : list effect :=
  [eff_check "Music"; eff_check "Spotify"] ++ pause_scripts w.

(** [savedVolumes] after the two [resumeMusicApp] calls of [stopDucking]. *)
Definition resumed (m : manager) : manager :=
  let m1 := if saved_was_playing "music" m then set_saved "music" js_null m else m in
  if saved_was_playing "spotify" m1 then set_saved "spotify" js_null m1 else m1.

Definition is_spawn (e : effect) : bool :=
  match e with eff_spawn _ _ => true | _ => false end.

Definition is_kill (e : effect) : bool :=
  match e with eff_kill _ => true | _ => false end.

End Lifecycle.

(** ** Bookkeeping over controller traces *)

Module Traces.
Import Controller.

(** One piece of a trace keeps the books: the stops it sends, plus the
    recording it leaves open, are covered by the starts it sends plus the
    recording it found open. *)
Definition balanced (s : keystate) (r : keystate * list command) : Prop :=
  (count sendStopDictation (snd r) + Nat.b2n (isRecording (fst r))
   <= count sendStartDictation (snd r) + Nat.b2n (isRecording s))%nat.

(** The handlers of [src] take their branch for the other modes under
    [e]; the Windows listener has none. *)
Definition tap_enabled (e : env) : Prop :=
  is_push e = false /\ hotkey_is_globe e = true /\ mainWindowLive e = true.

End Traces.

(** * Properties of the activation controller *)

Module ControllerProps.
Import Controller.

Lemma hold_timer_armed (s : keystate) :
  0 < keyDownTime s -> isRecording s = false ->
  hold_timer s =
    ({| keyDownTime := keyDownTime s; isRecording := true; timers := timers s |},
     [sendStartDictation]).
Proof.
  intros Hk Hr. unfold hold_timer.
  rewrite Hr. replace (0 <? keyDownTime s) with true; [reflexivity|].
  symmetry. apply Z.ltb_lt. exact Hk.
Qed.

Lemma hold_timer_spent (s : keystate) :
  keyDownTime s <= 0 \/ isRecording s = true -> hold_timer s = (s, []).
Proof.
  intros [Hk | Hr]; unfold hold_timer.
  - replace (0 <? keyDownTime s) with false; [reflexivity|].
    symmetry. apply Z.ltb_ge. exact Hk.
  - rewrite Hr. rewrite andb_false_r. reflexivity.
Qed.

(** Callbacks that find the key released, or the recording already
    started, do nothing, however many there are. *)
Lemma run_callbacks_spent (due : list Z) (s : keystate) :
  keyDownTime s <= 0 \/ isRecording s = true -> run_callbacks due s = (s, []).
Proof.
  intros H. induction due as [| d due IH]; simpl.
  - reflexivity.
  - rewrite (hold_timer_spent s H). rewrite IH. reflexivity.
Qed.

(** With the key held and no recording yet, the first callback starts the
    dictation and all the later ones are silent. *)
Lemma run_callbacks_armed (d : Z) (due : list Z) (s : keystate) :
  0 < keyDownTime s -> isRecording s = false ->
  run_callbacks (d :: due) s =
    ({| keyDownTime := keyDownTime s; isRecording := true; timers := timers s |},
     [sendStartDictation]).
Proof.
  intros Hk Hr. simpl. rewrite (hold_timer_armed s Hk Hr).
  rewrite run_callbacks_spent by (right; reflexivity). reflexivity.
Qed.

Lemma key_down_push (src : source) (e : env) (s : keystate) :
  push_enabled src e ->
  exists pre,
    key_down src e s =
      ({| keyDownTime := now e; isRecording := false;
          timers := timers s ++ [now e + hold_threshold src] |},
       pre ++ [showDictationPanel]) /\
    dictation_commands pre = [] /\ count hideDictationPanel pre = 0%nat.
Proof.
  intros [Hp Hsrc]. destruct src; simpl in *.
  - destruct Hsrc as [Hg Hm]. unfold globe_down. rewrite Hg, Hm, Hp.
    eexists. split; [reflexivity|]. destruct (controlPanelLive e); split; reflexivity.
  - unfold win_key_down. rewrite Hsrc, Hp. exists []. repeat split.
Qed.

Lemma key_up_push (src : source) (e : env) (s : keystate) :
  push_enabled src e -> isRecording s = true ->
  key_up src e s =
    ({| keyDownTime := 0; isRecording := false; timers := timers s |},
     [sendStopDictation]).
Proof.
  intros [Hp Hsrc] Hr. destruct src; simpl in *.
  - destruct Hsrc as [Hg Hm]. unfold globe_up. rewrite Hg, Hp, Hr. reflexivity.
  - unfold win_key_up. rewrite Hsrc, Hp, Hr. reflexivity.
Qed.

Lemma filter_due_last (t d : Z) (l : list Z) :
  d <= t -> exists d0 due, List.filter (is_due t) (l ++ [d]) = d0 :: due.
Proof.
  intros Hd. rewrite List.filter_app. simpl.
  replace (is_due t d) with true by (symmetry; apply Z.leb_le; exact Hd).
  destruct (List.filter (is_due t) l) as [| x xs]; simpl; eauto.
Qed.

Lemma dictation_commands_app (l1 l2 : list command) :
  dictation_commands (l1 ++ l2) = dictation_commands l1 ++ dictation_commands l2.
Proof. unfold dictation_commands. apply List.filter_app. Qed.

Lemma count_app (c : command) (l1 l2 : list command) :
  count c (l1 ++ l2) = (count c l1 + count c l2)%nat.
Proof. unfold count. apply count_occ_app. Qed.

(** The trace of a held press, whatever is still queued from earlier
    presses. *)
Lemma press_release_hold (src : source) (ed eu : env) (s : keystate) :
  push_enabled src ed -> push_enabled src eu ->
  0 < now ed -> now ed + hold_threshold src <= now eu ->
  exists pre,
    snd (press_release src ed eu s) =
      pre ++ [showDictationPanel; sendStartDictation; sendStopDictation] /\
    dictation_commands pre = [] /\ count hideDictationPanel pre = 0%nat.
Proof.
  intros Hd Hu Hpos Hheld. unfold press_release.
  destruct (key_down_push src ed s Hd) as (pre & -> & Hpre & Hhide).
  unfold step, fire_due; cbn [event_time handle keyDownTime isRecording timers].
  destruct (filter_due_last (now eu) (now ed + hold_threshold src) (timers s) Hheld)
    as (d0 & due & ->).
  rewrite run_callbacks_armed by (cbn; auto).
  cbn [keyDownTime isRecording timers].
  rewrite key_up_push by (cbn; auto). cbn [snd].
  exists pre. split; [|auto]. rewrite <- app_assoc. reflexivity.
Qed.

(** C4. In push mode, a press held for at least the hold threshold
    (150 ms) sends exactly one start-dictation, when the hold timer runs
    with the key still down, and exactly one stop-dictation, at key-up,
    the start before the stop.  This holds for both sources and for any
    state the earlier presses left behind. *)
Theorem push_hold_one_start_then_stop (src : source) (ed eu : env) (s : keystate) :
  push_enabled src ed -> push_enabled src eu ->
  0 < now ed -> now ed + hold_threshold src <= now eu ->
  let sent := snd (press_release src ed eu s) in
  dictation_commands sent = [sendStartDictation; sendStopDictation] /\
  count sendStartDictation sent = 1%nat /\
  count sendStopDictation sent = 1%nat.
Proof.
  intros Hd Hu Hpos Hheld sent. subst sent.
  destruct (press_release_hold src ed eu s Hd Hu Hpos Hheld) as (pre & -> & Hpre & _).
  assert (Hnone : forall c, is_dictation c = true -> count c pre = 0%nat).
  { intros c Hc. unfold count. apply count_occ_not_In. intros Hin.
    assert (Hf : List.In c (dictation_commands pre))
      by (apply List.filter_In; split; assumption).
    rewrite Hpre in Hf. exact Hf. }
  rewrite dictation_commands_app, Hpre, !count_app.
  rewrite (Hnone sendStartDictation), (Hnone sendStopDictation) by reflexivity.
  repeat split.
Qed.

Lemma push_hold_one_start_then_stop_witness :
  (push_enabled Globe (push_env 1000) /\ push_enabled Globe (push_env 1300) /\
   0 < now (push_env 1000) /\
   now (push_env 1000) + hold_threshold Globe <= now (push_env 1300)) /\
  let sent := snd (press_release Globe (push_env 1000) (push_env 1300) initial) in
  dictation_commands sent = [sendStartDictation; sendStopDictation] /\
  count sendStartDictation sent = 1%nat /\
  count sendStopDictation sent = 1%nat.
Proof.
  split; [repeat split; vm_compute; discriminate|].
  apply (push_hold_one_start_then_stop Globe (push_env 1000) (push_env 1300) initial).
  - repeat split.
  - repeat split.
  - reflexivity.
  - vm_compute. discriminate.
Defined.

(** The Globe key-up handler sends no hide-panel command, in any state
    and under any settings. *)
Lemma globe_up_never_hides (e : env) (s : keystate) :
  count hideDictationPanel (snd (globe_up e s)) = 0%nat.
Proof.
  unfold globe_up.
  destruct (hotkey_is_globe e), (is_push e), (isRecording s); reflexivity.
Qed.

(** The Windows key-up handler on a short tap: one hide-panel, nothing else. *)
Lemma win_key_up_short_tap (e : env) (s : keystate) :
  push_enabled WindowsKey e -> isRecording s = false ->
  snd (win_key_up e s) = [hideDictationPanel].
Proof.
  intros [Hp Hm] Hr. simpl in Hm. unfold win_key_up. rewrite Hm, Hp, Hr. reflexivity.
Qed.

(** C1. A tap of the Globe key in push mode, released 50 ms after the
    press: the recording has not started at key-up, and the key-up
    handler sends nothing at all, so the panel shown at key-down is never
    hidden.  The Windows handler sends its one hide-panel command on the
    same input. *)
Theorem globe_short_tap_sends_no_hide_panel :
  let s1 := fst (key_down Globe (push_env 1000) initial) in
  let w1 := fst (key_down WindowsKey (push_env 1000) initial) in
  isRecording (fst (fire_due 1050 s1)) = false /\
  snd (step Globe (KeyUp (push_env 1050)) s1) = [] /\
  snd (press_release Globe (push_env 1000) (push_env 1050) initial) = [showDictationPanel] /\
  snd (step WindowsKey (KeyUp (push_env 1050)) w1) = [hideDictationPanel].
Proof. vm_compute. repeat split. Qed.

(** C2, as stated, fails: with a session live and its recording started,
    a second key-down is not ignored.  It stamps a new press time, clears
    the recording flag and queues one more hold timer, on both sources. *)
Lemma second_key_down_resets_session :
  let s1 := fst (fire_due 1150 (fst (key_down WindowsKey (push_env 1000) initial))) in
  let s2 := fst (key_down WindowsKey (push_env 1200) s1) in
  let g1 := fst (fire_due 1150 (fst (key_down Globe (push_env 1000) initial))) in
  let g2 := fst (key_down Globe (push_env 1200) g1) in
  (live s1 = true /\ isRecording s1 = true /\ keyDownTime s1 = 1000 /\ timers s1 = []) /\
  (keyDownTime s2 = 1200 /\ isRecording s2 = false /\ timers s2 = [1350]) /\
  s2 <> s1 /\ g2 <> g1.
Proof. vm_compute. repeat split; discriminate. Qed.

(** C2, amended. Each source has one session record.  The controller does
    not debounce: in push mode every key-down, with a session live or
    not, stamps the press time with the current time, clears the
    recording flag, queues one more hold timer behind those already
    pending, and asks for the panel. *)
Theorem key_down_restamps_session (src : source) (e : env) (s : keystate) :
  push_enabled src e ->
  fst (key_down src e s) =
    {| keyDownTime := now e; isRecording := false;
       timers := timers s ++ [now e + hold_threshold src] |} /\
  count showDictationPanel (snd (key_down src e s)) = 1%nat.
Proof.
  intros [Hp Hsrc]. destruct src; simpl in *.
  - destruct Hsrc as [Hg Hm]. unfold globe_down. rewrite Hg, Hm, Hp.
    split; [reflexivity|]. destruct (controlPanelLive e); reflexivity.
  - unfold win_key_down. rewrite Hsrc, Hp. split; reflexivity.
Qed.

Lemma key_down_restamps_session_witness :
  push_enabled WindowsKey (push_env 1200) /\
  fst (key_down WindowsKey (push_env 1200)
         {| keyDownTime := 1000; isRecording := true; timers := [] |}) =
    {| keyDownTime := 1200; isRecording := false; timers := [] ++ [1200 + 150] |} /\
  count showDictationPanel
    (snd (key_down WindowsKey (push_env 1200)
            {| keyDownTime := 1000; isRecording := true; timers := [] |})) = 1%nat.
Proof.
  split; [repeat split|].
  apply (key_down_restamps_session WindowsKey (push_env 1200)
           {| keyDownTime := 1000; isRecording := true; timers := [] |}).
  repeat split.
Defined.

(** The hold timers are never cancelled, and the callback does not know
    which press queued it: the timer left by a tap starts the recording
    of the next press, here 50 ms into a press that lasts 100 ms. *)
Example stale_timer_starts_next_press :
  snd (run WindowsKey
         [KeyDown (push_env 1000); KeyUp (push_env 1050);
          KeyDown (push_env 1100); KeyUp (push_env 1200)] initial) =
    [showDictationPanel; hideDictationPanel;
     showDictationPanel; sendStartDictation; sendStopDictation].
Proof. reflexivity. Qed.

End ControllerProps.

(** * Properties of the audio ducking manager *)

Module DuckingProps.
Import Ducking.

(** Unfolds the method monad down to pairs. *)
Ltac run_method :=
  unfold value_of, state_of, effects_of, bind, ret, read, modify, emit in *;
  cbn [fst snd] in *.

(** *** The probes and their callbacks *)

(** The value, the new fields and the script run by the callbacks of one
    probe. *)
Lemma pause_callback_eq (w : world) (app key : string) (m : manager) :
  pause_callback w app key m =
    (resolved (pause_succeeds w app),
     if pause_succeeds w app then set_saved key (js_str "was_playing") m else m,
     if playing w app then [eff_pause app] else []).
Proof.
  unfold pause_callback, pause_succeeds, playing. run_method.
  destruct (check_result w app) as [msg | out]; [reflexivity|].
  destruct (String.eqb (trim out) "playing"); [| reflexivity].
  destruct (pause_result w app); reflexivity.
Qed.

(** The value, the new fields and the scripts run by [pauseMusicApp]. *)
Lemma pauseMusicApp_eq (w : world) (app key : string) (m : manager) :
  pauseMusicApp w app key m =
    (resolved (pause_succeeds w app),
     if pause_succeeds w app then set_saved key (js_str "was_playing") m else m,
     eff_check app :: if playing w app then [eff_pause app] else []).
Proof.
  unfold pauseMusicApp, pause_probe. unfold bind, emit.
  rewrite pause_callback_eq. reflexivity.
Qed.

(** The two writes of the callbacks commute. *)
Lemma paused_other_order (w : world) (m : manager) :
  (if pause_succeeds w "Music"
   then set_saved "music" (js_str "was_playing")
          (if pause_succeeds w "Spotify"
           then set_saved "spotify" (js_str "was_playing") m else m)
   else if pause_succeeds w "Spotify"
        then set_saved "spotify" (js_str "was_playing") m else m) = paused w m.
Proof.
  unfold paused. cbv zeta.
  destruct (pause_succeeds w "Music"), (pause_succeeds w "Spotify"); try reflexivity.
  unfold set_saved. cbn. f_equal. apply insert_insert_ne. discriminate.
Qed.

Lemma paused_fields (w : world) (m : manager) :
  isActive (paused w m) = isActive m /\
  fallbackMode (paused w m) = fallbackMode m /\
  duckerProcess (paused w m) = duckerProcess m /\
  duckLevel (paused w m) = duckLevel m /\
  useAdvancedDucking (paused w m) = useAdvancedDucking m.
Proof.
  unfold paused.
  destruct (pause_succeeds w "Music"), (pause_succeeds w "Spotify"); repeat split.
Qed.

Lemma pause_scripts_kinds (w : world) (e : effect) :
  In e (pause_scripts w) ->
  (e = eff_pause "Music" /\ playing w "Music" = true) \/
  (e = eff_pause "Spotify" /\ playing w "Spotify" = true).
Proof.
  unfold pause_scripts.
  destruct (spotify_answers_first w), (playing w "Music"), (playing w "Spotify");
    cbn; intros H; repeat destruct H as [<- | H]; try contradiction; auto.
Qed.

Lemma pause_scripts_playing (w : world) (app : string) :
  In app known_players -> playing w app = true -> In (eff_pause app) (pause_scripts w).
Proof.
  unfold pause_scripts.
  intros [<- | [<- | []]] Hp; rewrite Hp;
    destruct (spotify_answers_first w);
    match goal with |- context [if ?c then _ else _] => destruct c end;
    cbn; auto.
Qed.

(** *** The listeners *)

Lemma listener_step_refl (calmly : bool) (m : manager) : listener_step calmly m m [].
Proof. unfold listener_step. repeat split; auto. intros x []. Qed.

Lemma listener_step_trans (c1 c2 : bool) (m m1 m2 : manager) (e1 e2 : list effect) :
  listener_step c1 m m1 e1 -> listener_step c2 m1 m2 e2 ->
  listener_step (c1 && c2) m m2 (e1 ++ e2).
Proof.
  intros (Hs1 & Hl1 & Ha1 & He1 & Hf1 & Hi1 & Hp1) (Hs2 & Hl2 & Ha2 & He2 & Hf2 & Hi2 & Hp2).
  unfold listener_step.
  split; [congruence|]. split; [congruence|]. split; [congruence|].
  split; [| split; [| split]].
  - intros x Hx. apply in_app_or in Hx as [Hx | Hx]; auto.
  - intros Hc. apply andb_true_iff in Hc as [-> ->]. rewrite Hf2, Hf1; reflexivity.
  - intros Hc Hm. apply andb_true_iff in Hc as [-> ->]. auto.
  - intros Hm. destruct (Hp1 Hm) as [Hm1 ->]. destruct (Hp2 Hm1) as [Hm2 ->].
    split; [exact Hm2 | reflexivity].
Qed.

Lemma stopNativeDucking_eq (w : world) (m : manager) :
  stopNativeDucking w m =
    match duckerProcess m with
    | Some _ => (tt, set_duckerProcess None m, [eff_kill "SIGTERM"])
    | None => (tt, m, [])
    end.
Proof.
  unfold stopNativeDucking. run_method.
  destruct (duckerProcess m); [destruct (kill_throws w)|]; reflexivity.
Qed.

Lemma on_turn_step (w : world) (t : turn) (a : attempt) (m : manager) :
  listener_step (calm t) m (state_of (on_turn w t a m)) (effects_of (on_turn w t a m)).
Proof.
  destruct t as [[data | data | err | code] |]; cbn [on_turn on_event calm confirming].
  - destruct (includes (trim data) "DUCKING_STARTED"); cbn [andb negb].
    + destruct (started a); cbn [negb]; unfold listener_step;
        repeat split; cbn; auto; try discriminate; intros x [].
    + apply listener_step_refl.
  - apply listener_step_refl.
  - unfold listener_step. repeat split; cbn; auto. intros x [].
  - unfold listener_step. repeat split; cbn; auto. intros x [].
  - unfold on_timeout. destruct (started a); cbn [negb]; [apply listener_step_refl|].
    unfold bind. rewrite stopNativeDucking_eq.
    destruct (duckerProcess m) eqn:Hp; unfold listener_step, state_of, effects_of;
      cbn [fst snd app]; repeat split; cbn; auto; try congruence.
    + intros x [<- | []]. reflexivity.
    + intros x [].
Qed.

Lemma run_listeners_step (w : world) (ts : list turn) (a : attempt) (m : manager) :
  listener_step (forallb calm ts) m
    (state_of (run_listeners w ts a m)) (effects_of (run_listeners w ts a m)).
Proof.
  revert a m. induction ts as [| t ts IH]; intros a m.
  - apply listener_step_refl.
  - cbn [run_listeners forallb]. unfold bind.
    pose proof (on_turn_step w t a m) as H1.
    destruct (on_turn w t a m) as [[a1 m1] e1].
    pose proof (IH a1 m1) as H2.
    destruct (run_listeners w ts a1 m1) as [[a2 m2] e2].
    unfold state_of, effects_of in *. cbn [fst snd] in *.
    exact (listener_step_trans _ _ m m1 m2 e1 e2 H1 H2).
Qed.

(** Turns that do not confirm a start leave an inactive manager without
    a helper exactly as it was. *)
Lemma run_listeners_calm_at_rest (w : world) (ts : list turn) (a : attempt) (m : manager) :
  forallb calm ts = true -> isActive m = false -> duckerProcess m = None ->
  state_of (run_listeners w ts a m) = m /\ effects_of (run_listeners w ts a m) = [].
Proof.
  intros Hcalm Hi Hp.
  pose proof (run_listeners_step w ts a m) as (Hs & Hl & Ha & _ & Hf & Hact & Hproc).
  rewrite Hcalm in Hf, Hact. specialize (Hf eq_refl). specialize (Hact eq_refl Hi).
  destruct (Hproc Hp) as [Hp' He]. split; [| exact He].
  destruct (state_of (run_listeners w ts a m)) as [p' a' sv' dl' ad' f'].
  destruct m as [p0 a0 sv dl ad f]. cbn in *. congruence.
Qed.

(** *** The scripting fallback *)

(** [startAppleScriptDucking] on macOS, with any listeners attached: it
    returns [true] and ends active; what the listener turns did in
    between is kept, and the callbacks' writes come on top. *)
Lemma during_eq (w : world) (ls : listeners) (m : manager) :
  is_darwin w = true ->
  let r := run_listeners w (take (fallback_window w) (pending ls)) (closure ls)
             (set_fallbackMode true m) in
  startAppleScriptDucking_during w ls m =
    (true, set_isActive true (paused w (state_of r)),
     [eff_check "Music"; eff_check "Spotify"] ++ effects_of r ++ pause_scripts w).
Proof.
  intros Hd. cbv zeta. unfold startAppleScriptDucking_during. rewrite Hd. cbn [negb].
  unfold pause_probe.
  unfold bind at 1, modify at 1. unfold bind at 1, emit at 1. unfold bind at 1, emit at 1.
  unfold bind at 1.
  destruct (run_listeners w _ _ (set_fallbackMode true m)) as [[a1 m1] e1].
  unfold state_of, effects_of. cbn [fst snd].
  assert (Hpromise : forall b1 b2 : bool,
            promise_all [resolved b1; resolved b2] = resolved [b1; b2]) by reflexivity.
  unfold bind at 1.
  destruct (spotify_answers_first w) eqn:Hfirst.
  - unfold bind at 1. rewrite pause_callback_eq.
    unfold bind at 1. rewrite pause_callback_eq.
    unfold ret at 1. rewrite Hpromise. unfold bind, modify, ret.
    rewrite orb_true_r. unfold pause_scripts. rewrite Hfirst. cbv zeta.
    rewrite !app_nil_r. cbn [app].
    rewrite <- (paused_other_order w m1). reflexivity.
  - unfold bind at 1. rewrite pause_callback_eq.
    unfold bind at 1. rewrite pause_callback_eq.
    unfold ret at 1. rewrite Hpromise. unfold bind, modify, ret.
    rewrite orb_true_r. unfold pause_scripts. rewrite Hfirst. cbv zeta.
    rewrite !app_nil_r. cbn [app]. reflexivity.
Qed.

(** *** The native attempt *)

(** Quiet events leave the attempt and the manager as they were. *)
Lemma on_event_quiet (ev : proc_event) (a : attempt) (m : manager) :
  quiet ev = true -> on_event ev a m = (a, m, []).
Proof.
  destruct ev as [data | data | err | code]; cbn; intros Hq; try discriminate.
  - apply negb_true_iff in Hq. rewrite Hq. reflexivity.
  - reflexivity.
Qed.

Lemma quiet_turns_of_events (evs : list proc_event) :
  forallb quiet_turn (map helper_event evs) = forallb quiet evs.
Proof. induction evs as [| ev evs IH]; cbn; [reflexivity | rewrite IH; reflexivity]. Qed.

Lemma deliver_quiet (w : world) (pre rest : list turn) (a : attempt) (m : manager) :
  forallb quiet_turn pre = true -> resolution a = None ->
  deliver w (pre ++ rest) a m = deliver w rest a m.
Proof.
  intros Hq Ha. induction pre as [| t pre IH]; cbn [app deliver]; [reflexivity|].
  cbn in Hq. apply andb_true_iff in Hq as [Ht Hpre].
  destruct t as [ev |]; [| discriminate Ht]. cbn [on_turn].
  unfold bind. rewrite (on_event_quiet ev a m Ht). rewrite Ha.
  rewrite (IH Hpre). destruct (deliver w rest a m) as [[r m'] effs]. reflexivity.
Qed.

(** Every way the turns of a fresh attempt on a spawned helper can go,
    up to the turn that resolves the promise: nothing resolves it, a
    chunk of output confirms, or an error, the exit or the timer fails
    it; the turns left are those after the first that is not quiet. *)
Lemma deliver_outcome (w : world) (ts : list turn) (m : manager) (p : process) :
  duckerProcess m = Some p ->
  exists a m' e,
    deliver w ts fresh_attempt m = ((a, after_resolution ts), m', e) /\
    ((resolution a = None /\ m' = m /\ e = [] /\ forallb quiet_turn ts = true) \/
     (resolution a = Some true /\ e = [] /\
      m' = set_fallbackMode false (set_isActive true m)) \/
     (resolution a = Some false /\ started a = false /\
      (m' = set_duckerProcess None m \/
       m' = set_isActive false (set_duckerProcess None m)) /\
      (e = [] \/ e = [eff_kill "SIGTERM"]))).
Proof.
  intros Hp. induction ts as [| t ts IH]; cbn [deliver after_resolution].
  - exists fresh_attempt, m, []. split; [reflexivity|]. left. repeat split.
  - destruct IH as (a & m' & e & Hdel & Hcases).
    destruct t as [[data | data | err | code] |];
      cbn [on_turn on_event quiet_turn quiet]; unfold bind.
    + cbn [started fresh_attempt negb]. rewrite andb_true_r.
      destruct (includes (trim data) "DUCKING_STARTED") eqn:Hmark; cbn [negb].
      * eexists _, _, _. cbn. split; [reflexivity|]. right. left. repeat split.
      * cbn. rewrite Hdel. exists a, m', e. split; [reflexivity|].
        destruct Hcases as [(Hr & Hm & He & Hq) | [H | H]];
          [left | right; left; exact H | right; right; exact H].
        repeat split; try assumption. cbn. rewrite Hmark. cbn. exact Hq.
    + cbn. rewrite Hdel. exists a, m', e. split; [reflexivity|].
      destruct Hcases as [(Hr & Hm & He & Hq) | [H | H]];
        [left | right; left; exact H | right; right; exact H].
      repeat split; assumption.
    + eexists _, _, _. cbn. split; [reflexivity|]. right. right.
      repeat split; auto.
    + eexists _, _, _. cbn. split; [reflexivity|]. right. right.
      repeat split; auto.
    + unfold on_timeout. cbn [started fresh_attempt negb]. unfold bind.
      rewrite stopNativeDucking_eq, Hp. cbn.
      eexists _, _, _. split; [reflexivity|]. right. right. repeat split; auto.
Qed.

(** The timer is in every stream, so the promise of a spawned helper
    always resolves. *)
Lemma stream_not_quiet (w : world) : forallb quiet_turn (stream w) = false.
Proof.
  unfold stream. rewrite forallb_app. cbn. apply andb_false_r.
Qed.

(** Every way [startNativeDucking] can end.  It returns [true] only with
    the helper spawned and confirmed, and then the manager is active, out
    of fallback mode and holds the helper; it returns [false] either
    before any spawn, with nothing changed and no listener attached, or
    after one, with the handle dropped. *)
Lemma startNativeDucking_outcome (w : world) (lvl : string) (adv : bool) (m : manager) :
  let r := startNativeDucking w lvl adv m in
  (value_of r = (false, no_listeners) /\ state_of r = m /\ effects_of r = [] /\
   (getBinaryPath w = None \/ spawn_throws w = true)) \/
  (exists bp,
     getBinaryPath w = Some bp /\ spawn_throws w = false /\
     pending (snd (value_of r)) = after_resolution (stream w) /\
     let p := Process bp (ducker_args lvl adv) in
     ((fst (value_of r) = true /\
       state_of r = set_fallbackMode false (set_isActive true (set_duckerProcess (Some p) m)) /\
       effects_of r = [eff_spawn bp (ducker_args lvl adv)]) \/
      (fst (value_of r) = false /\
       (state_of r = set_duckerProcess None m \/
        state_of r = set_isActive false (set_duckerProcess None m)) /\
       (effects_of r = [eff_spawn bp (ducker_args lvl adv)] \/
        effects_of r = [eff_spawn bp (ducker_args lvl adv); eff_kill "SIGTERM"])))).
Proof.
  cbv zeta. unfold startNativeDucking.
  destruct (getBinaryPath w) as [bp |] eqn:Hbin.
  2:{ left. repeat split. left. reflexivity. }
  destruct (spawn_throws w) eqn:Hspawn.
  { left. repeat split. right. reflexivity. }
  right. exists bp. split; [reflexivity|]. split; [reflexivity|].
  destruct (deliver_outcome w (stream w)
              (set_duckerProcess (Some (Process bp (ducker_args lvl adv))) m)
              (Process bp (ducker_args lvl adv)) eq_refl)
    as (a & m' & e & Hdel & Hcases).
  run_method. rewrite Hdel. cbn [fst snd pending]. split; [reflexivity|].
  destruct Hcases as [(_ & _ & _ & Hq) | [(Hr & -> & ->) | (Hr & _ & Hm' & He)]]; cbn [closure].
  - rewrite stream_not_quiet in Hq. discriminate Hq.
  - left. rewrite Hr. repeat split.
  - right. rewrite Hr. split; [reflexivity|]. split.
    + destruct Hm' as [-> | ->]; [left | right]; reflexivity.
    + destruct He as [-> | ->]; [left | right]; reflexivity.
Qed.

(** The listener turns taken during the fallback that follows a failed
    attempt are those the world names. *)
Lemma startNativeDucking_pending (w : world) (lvl : string) (adv : bool) (m : manager) :
  take (fallback_window w) (pending (snd (value_of (startNativeDucking w lvl adv m)))) =
  handled_during_fallback w.
Proof.
  pose proof (startNativeDucking_outcome w lvl adv m) as Hout. cbv zeta in Hout.
  unfold handled_during_fallback.
  destruct Hout as [(Hv & _ & _ & [Hn | Hn]) | (bp & Hbin & Hsp & Hpend & _)].
  - rewrite Hv, Hn. cbn. apply take_nil.
  - rewrite Hv, Hn. cbn. rewrite take_nil. destruct (getBinaryPath w); reflexivity.
  - rewrite Hbin, Hsp, Hpend. reflexivity.
Qed.

(** A failing native attempt hands [false] to its caller. *)
Lemma startNativeDucking_failure (w : world) (lvl : string) (adv : bool) (m : manager) :
  native_failure w -> fst (value_of (startNativeDucking w lvl adv m)) = false.
Proof.
  intros Hfail. unfold startNativeDucking.
  destruct (getBinaryPath w) as [bp |] eqn:Hbin; [| reflexivity].
  destruct (spawn_throws w) eqn:Hspawn; [reflexivity |].
  set (m0 := set_duckerProcess (Some (Process bp (ducker_args lvl adv))) m).
  assert (Hres : exists a rest m' e,
            deliver w (stream w) fresh_attempt m0 = ((a, rest), m', e) /\
            resolution a = Some false).
  { unfold stream.
    destruct Hfail as [H | H | Hq | pre post err Hev Hq | pre post code Hev Hq];
      try congruence.
    - rewrite deliver_quiet
        by (rewrite ?quiet_turns_of_events; assumption || reflexivity).
      cbn [deliver on_turn]. unfold bind, on_timeout. cbn [started fresh_attempt negb].
      unfold bind. rewrite stopNativeDucking_eq. cbn.
      eexists _, _, _, _. split; reflexivity.
    - rewrite Hev, map_app, <- app_assoc.
      rewrite deliver_quiet
        by (rewrite ?quiet_turns_of_events; assumption || reflexivity).
      cbn. eexists _, _, _, _. split; reflexivity.
    - rewrite Hev, map_app, <- app_assoc.
      rewrite deliver_quiet
        by (rewrite ?quiet_turns_of_events; assumption || reflexivity).
      cbn. eexists _, _, _, _. split; reflexivity. }
  destruct Hres as (a & rest & m' & e & Hdel & Hr).
  run_method. fold m0. rewrite Hdel. cbn. rewrite Hr. reflexivity.
Qed.

(** [startDucking] from the inactive state on macOS, step by step. *)
Lemma startDucking_darwin (w : world) (o : options) (m : manager) :
  is_darwin w = true -> isActive m = false ->
  startDucking w o m =
    let '(native, m1, e1) :=
      startNativeDucking w (default (duckLevel m) (truthy (level o)))
                           (default (useAdvancedDucking m) (advanced o)) m in
    if fst native then (true, m1, e1)
    else let '(b, m2, e2) := startAppleScriptDucking_during w (snd native) m1 in
         (b, m2, e1 ++ e2).
Proof.
  intros Hd Hi. unfold startDucking. run_method. rewrite Hi, Hd.
  destruct (startNativeDucking w _ _ m) as [[[ok ls] m1] e1]. cbn [fst snd].
  destruct ok; cbn.
  - rewrite app_nil_r. reflexivity.
  - destruct (startAppleScriptDucking_during w ls m1) as [[b m2] e2]. reflexivity.
Qed.

(** A failed attempt followed by the fallback, as one equation. *)
Lemma startDucking_fallback_eq (w : world) (o : options) (m : manager) :
  is_darwin w = true -> isActive m = false -> native_failure w ->
  exists ls m1 e1,
    startNativeDucking w (default (duckLevel m) (truthy (level o)))
                         (default (useAdvancedDucking m) (advanced o)) m
      = ((false, ls), m1, e1) /\
    let r := run_listeners w (handled_during_fallback w) (closure ls)
               (set_fallbackMode true m1) in
    startDucking w o m =
      (true, set_isActive true (paused w (state_of r)),
       e1 ++ [eff_check "Music"; eff_check "Spotify"] ++ effects_of r ++ pause_scripts w).
Proof.
  intros Hd Hi Hfail.
  rewrite (startDucking_darwin w o m Hd Hi).
  pose proof (startNativeDucking_failure w
                (default (duckLevel m) (truthy (level o)))
                (default (useAdvancedDucking m) (advanced o)) m Hfail) as Hnat.
  pose proof (startNativeDucking_pending w
                (default (duckLevel m) (truthy (level o)))
                (default (useAdvancedDucking m) (advanced o)) m) as Hpend.
  destruct (startNativeDucking w _ _ m) as [[[ok ls] m1] e1].
  unfold value_of in Hnat, Hpend. cbn [fst snd] in Hnat, Hpend. subst ok.
  exists ls, m1, e1. split; [reflexivity|]. cbv zeta. cbn [fst snd].
  rewrite (during_eq w ls m1 Hd). cbv zeta. rewrite Hpend. reflexivity.
Qed.

(** *** The fallback after a failed attempt *)

(** C5. The claim fails when the helper's confirmation is handled after
    the attempt has failed.  Nothing is read from the helper before the
    3000 ms timer, so the timer sends SIGTERM and the attempt fails;
    [startDucking] falls back, probes both players, pauses Music and
    returns [true].  The listeners are still attached: the chunk with the
    start marker is handled while the fallback awaits its scripts, and
    the listener clears [fallbackMode].  [getStatus] then does not report
    fallback mode, and the [stopDucking] that follows takes the native
    branch: it sends no play command and Music stays paused, its
    [savedVolumes] slot still saying "was_playing". *)
Theorem late_confirmation_hides_fallback :
  let w := mac_late_confirmation in
  let r := startDucking w no_options new in
  (is_darwin w = true /\ isActive new = false /\ native_failure w) /\
  value_of r = true /\
  effects_of r =
    [eff_spawn "/Applications/OpenWhispr.app/Contents/Resources/bin/macos-audio-ducker"
       ["start"; "--level"; "default"]%string;
     eff_kill "SIGTERM";
     eff_check "Music"; eff_check "Spotify"; eff_pause "Music"] /\
  isActive (state_of r) = true /\
  fallbackMode (state_of r) = false /\
  get (value_of (getStatus w (state_of r))) "fallbackMode" = Some (js_bool false) /\
  effects_of (stopDucking w (state_of r)) = [] /\
  saved_was_playing "music" (state_of (stopDucking w (state_of r))) = true.
Proof.
  cbv zeta. split.
  - split; [reflexivity|]. split; [reflexivity|].
    apply confirmation_timeout. reflexivity.
  - vm_compute. repeat split.
Qed.

(** What the code does when no confirmation comes late.  On macOS, from
    the inactive state, when the native attempt fails (the helper
    confirms nothing before the 3000 ms timer, the spawn fails, or the
    helper exits first) and the helper delivers no output holding the
    start marker while the fallback is under way, [startDucking] runs the
    scripting fallback over the known players, pausing each one that is
    playing, reports success, and [getStatus] then reports fallback
    mode. *)
Theorem native_failure_falls_back (w : world) (o : options) (m : manager) :
  is_darwin w = true -> isActive m = false -> native_failure w ->
  no_late_confirmation w ->
  let r := startDucking w o m in
  value_of r = true /\
  (forall app, In app known_players ->
     In (eff_check app) (effects_of r) /\
     (playing w app = true -> In (eff_pause app) (effects_of r))) /\
  isActive (state_of r) = true /\
  fallbackMode (state_of r) = true /\
  get (value_of (getStatus w (state_of r))) "fallbackMode" = Some (js_bool true).
Proof.
  intros Hd Hi Hfail Hcalm. cbv zeta.
  destruct (startDucking_fallback_eq w o m Hd Hi Hfail) as (ls & m1 & e1 & _ & Heq).
  cbv zeta in Heq. rewrite Heq. clear Heq.
  pose proof (run_listeners_step w (handled_during_fallback w) (closure ls)
                (set_fallbackMode true m1)) as (_ & _ & _ & _ & Hf & _ & _).
  unfold no_late_confirmation in Hcalm. rewrite Hcalm in Hf. specialize (Hf eq_refl).
  destruct (run_listeners w (handled_during_fallback w) (closure ls)
              (set_fallbackMode true m1)) as [[a2 m2] e2].
  unfold value_of, state_of, effects_of in *. cbn [fst snd] in *.
  assert (Hfall : fallbackMode (set_isActive true (paused w m2)) = true).
  { destruct (paused_fields w m2) as (_ & Hpf & _).
    cbn [set_isActive fallbackMode]. rewrite Hpf. exact Hf. }
  split; [reflexivity|]. split; [| split; [reflexivity | split; [exact Hfall|]]].
  - intros app Happ. split.
    + apply in_or_app. right. apply in_or_app. left.
      destruct Happ as [<- | [<- | []]]; cbn; auto.
    + intros Hpl. apply in_or_app. right. apply in_or_app. right.
      apply in_or_app. right. exact (pause_scripts_playing w app Happ Hpl).
  - unfold getStatus, bind, read, ret. cbn [fst snd get String.eqb].
    rewrite Hfall. reflexivity.
Qed.

Lemma native_failure_falls_back_witness :
  (is_darwin mac_silent_helper = true /\ isActive new = false /\
   no_late_confirmation mac_silent_helper) /\
  let r := startDucking mac_silent_helper no_options new in
  value_of r = true /\
  (forall app, In app known_players ->
     In (eff_check app) (effects_of r) /\
     (playing mac_silent_helper app = true -> In (eff_pause app) (effects_of r))) /\
  isActive (state_of r) = true /\
  fallbackMode (state_of r) = true /\
  get (value_of (getStatus mac_silent_helper (state_of r))) "fallbackMode"
    = Some (js_bool true).
Proof.
  split; [split; [reflexivity | split; reflexivity]|].
  apply (native_failure_falls_back mac_silent_helper no_options new).
  - reflexivity.
  - reflexivity.
  - apply confirmation_timeout. reflexivity.
  - reflexivity.
Defined.

(** C6, as stated, fails on the field names: the object [getStatus]
    returns has no [mode] property. *)
Lemma getStatus_has_no_mode_field :
  let o := value_of (getStatus mac_silent_helper ducking_fallback) in
  get o "mode" = None /\
  ~ In "mode"%string (keys o) /\
  keys o <> ["isActive"; "mode"; "nativeAvailable"]%string.
Proof.
  vm_compute. split; [reflexivity|]. split.
  - intros [H | [H | [H | []]]]; discriminate H.
  - discriminate.
Qed.

(** C6, amended. [getStatus] returns an object with exactly the fields
    [isActive], [fallbackMode] (a boolean) and [nativeAvailable], holding
    the manager's two flags and the availability of the native helper; it
    leaves every field of the manager as it was and makes no call
    outside. *)
Theorem getStatus_pure_read (w : world) (m : manager) :
  keys (value_of (getStatus w m)) = ["isActive"; "fallbackMode"; "nativeAvailable"]%string /\
  get (value_of (getStatus w m)) "isActive" = Some (js_bool (isActive m)) /\
  get (value_of (getStatus w m)) "fallbackMode" = Some (js_bool (fallbackMode m)) /\
  get (value_of (getStatus w m)) "nativeAvailable"
    = Some (js_bool (isNativeDuckingAvailable w)) /\
  state_of (getStatus w m) = m /\
  effects_of (getStatus w m) = [].
Proof. repeat split. Qed.

(** Writing one slot of [savedVolumes] does not change the reading of
    another. *)
Lemma saved_was_playing_other (key key' : string) (v : saved) (m : manager) :
  key <> key' ->
  saved_was_playing key' (set_saved key v m) = saved_was_playing key' m.
Proof.
  intros Hne. unfold saved_was_playing, set_saved. cbn.
  rewrite lookup_insert_ne by exact Hne. reflexivity.
Qed.

(** [resumeMusicApp]: silent unless the slot says "was_playing"; the
    outcome of the play script makes no difference. *)
Lemma resumeMusicApp_spec (w : world) (app key : string) (m : manager) :
  resumeMusicApp w app key m =
    if saved_was_playing key m
    then (tt, set_saved key js_null m, [eff_play app])
    else (tt, m, []).
Proof.
  unfold resumeMusicApp. run_method.
  destruct (saved_was_playing key m); [| reflexivity].
  cbn. destruct (play_result w app); reflexivity.
Qed.



(** The play commands of [stopDucking] in fallback mode, read off the
    two slots of [savedVolumes]. *)
Lemma stopDucking_fallback_effects (w : world) (m : manager) :
  isActive m = true -> fallbackMode m = true ->
  effects_of (stopDucking w m) =
    (if saved_was_playing "music" m then [eff_play "Music"] else []) ++
    (if saved_was_playing "spotify" m then [eff_play "Spotify"] else []).
Proof.
  intros Ha Hf. unfold stopDucking. run_method.
  rewrite Ha. cbn [negb]. cbv beta. rewrite Hf.
  rewrite (resumeMusicApp_spec w "Music" "music" m).
  destruct (saved_was_playing "music" m); cbv beta iota;
    rewrite resumeMusicApp_spec, ?saved_was_playing_other by discriminate;
    destruct (saved_was_playing "spotify" m); reflexivity.
Qed.

(** C8. [stopDucking] on an inactive manager returns at once: no field
    changes (the flags, [savedVolumes] and the helper handle stay as they
    are), no script is run and no signal is sent; calling it again
    changes nothing either. *)
Theorem stopDucking_inactive_noop (w : world) (m : manager) :
  isActive m = false ->
  stopDucking w m = (tt, m, []) /\
  stopDucking w (state_of (stopDucking w m)) = stopDucking w m.
Proof.
  intros Hi.
  assert (Heq : stopDucking w m = (tt, m, [])).
  { unfold stopDucking. run_method. rewrite Hi. reflexivity. }
  split; [exact Heq|]. rewrite Heq. unfold state_of. cbn [fst snd]. exact Heq.
Qed.

Lemma stopDucking_inactive_noop_witness :
  isActive new = false /\
  stopDucking mac_silent_helper new = (tt, new, []) /\
  stopDucking mac_silent_helper (state_of (stopDucking mac_silent_helper new))
    = stopDucking mac_silent_helper new.
Proof.
  split; [reflexivity|].
  apply (stopDucking_inactive_noop mac_silent_helper new). reflexivity.
Defined.

(** C9. Off macOS, [startDucking] from the inactive state returns [false]
    with the manager unchanged and nothing done outside: no helper is
    spawned, and the scripting fallback returns [false] before it touches
    a field or runs a script. *)
Theorem startDucking_off_macos (w : world) (o : options) (m : manager) :
  is_darwin w = false -> isActive m = false ->
  startDucking w o m = (false, m, []) /\
  startAppleScriptDucking w m = (false, m, []) /\
  isActive (state_of (startDucking w o m)) = false.
Proof.
  intros Hd Hi.
  assert (Hfb : startAppleScriptDucking w m = (false, m, [])).
  { unfold startAppleScriptDucking, startAppleScriptDucking_during.
    rewrite Hd. reflexivity. }
  assert (Heq : startDucking w o m = (false, m, [])).
  { unfold startDucking. run_method. rewrite Hi, Hd, Hfb. reflexivity. }
  split; [exact Heq|]. split; [exact Hfb|]. rewrite Heq. exact Hi.
Qed.

Lemma startDucking_off_macos_witness :
  (is_darwin windows_pc = false /\ isActive new = false) /\
  startDucking windows_pc no_options new = (false, new, []) /\
  startAppleScriptDucking windows_pc new = (false, new, []) /\
  isActive (state_of (startDucking windows_pc no_options new)) = false.
Proof.
  split; [split; reflexivity|].
  apply (startDucking_off_macos windows_pc no_options new); reflexivity.
Defined.

(** C10. On macOS the scripting fallback reports success whatever the
    scripts do: [pauseMusicApp] always resolves, with [false] when the
    probe or the pause script fails, so [Promise.all] does not reject,
    and [startAppleScriptDucking] returns [true] with the manager
    active. *)
Theorem fallback_succeeds_when_scripts_fail (w : world) (m : manager) :
  is_darwin w = true ->
  (forall app key m0, exists b, value_of (pauseMusicApp w app key m0) = resolved b) /\
  (forall app key m0,
     (exists msg, check_result w app = exec_err msg) \/
     (exists msg, pause_result w app = exec_err msg) ->
     value_of (pauseMusicApp w app key m0) = resolved false) /\
  (exists results,
     promise_all [value_of (pauseMusicApp w "Music" "music" (set_fallbackMode true m));
                  value_of (pauseMusicApp w "Spotify" "spotify"
                    (state_of (pauseMusicApp w "Music" "music" (set_fallbackMode true m))))]
       = resolved results) /\
  value_of (startAppleScriptDucking w m) = true /\
  isActive (state_of (startAppleScriptDucking w m)) = true.
Proof.
  intros Hd. split; [| split; [| split]].
  - intros app key m0. rewrite pauseMusicApp_eq. eexists. reflexivity.
  - intros app key m0 Herr. rewrite pauseMusicApp_eq. unfold value_of. cbn [fst].
    f_equal. unfold pause_succeeds, playing.
    destruct Herr as [[msg ->] | [msg ->]]; [reflexivity|]. apply andb_false_r.
  - rewrite !pauseMusicApp_eq. unfold value_of. cbn. eexists. reflexivity.
  - unfold startAppleScriptDucking. rewrite (during_eq w no_listeners m Hd).
    split; reflexivity.
Qed.

Lemma fallback_succeeds_when_scripts_fail_witness :
  is_darwin mac_scripts_fail = true /\
  value_of (pauseMusicApp mac_scripts_fail "Music" "music" new) = resolved false /\
  value_of (startAppleScriptDucking mac_scripts_fail new) = true /\
  isActive (state_of (startAppleScriptDucking mac_scripts_fail new)) = true.
Proof.
  split; [reflexivity|].
  destruct (fallback_succeeds_when_scripts_fail mac_scripts_fail new eq_refl)
    as (_ & Hfalse & _ & Hvalue & Hactive).
  split; [| split; assumption].
  apply Hfalse. left. exists "execution error"%string. reflexivity.
Defined.

End DuckingProps.

(** * Properties of the teardown *)

Module TeardownProps.
Import Ducking Teardown.

(** The quit handler hands the ducking manager back as it found it and
    runs none of its methods. *)
Lemma will_quit_ducking_untouched (a : app_state) :
  audioDuckingManager (fst (fst (will_quit a))) = audioDuckingManager a /\
  snd (will_quit a) = [].
Proof. split; reflexivity. Qed.

(** The key listeners are stopped whenever they exist. *)
Lemma will_quit_stops_key_listeners (a : app_state) :
  (globeKeyManager a = true -> In globeKeyManager_stop (snd (fst (will_quit a)))) /\
  (windowsKeyManager a = true -> In windowsKeyManager_stop (snd (fst (will_quit a)))).
Proof.
  unfold will_quit. cbn [fst snd].
  split; intros ->; destruct (hotkeyManager a); cbn;
    destruct (globeKeyManager a); cbn; auto 10.
Qed.

(** C3. Quitting while ducking natively: the handler stops both key
    listeners but never reaches the ducking manager, which stays active
    with its helper process alive and unsignalled; [cleanup], the method
    written for this moment, would have sent SIGTERM and ended inactive. *)
Theorem will_quit_leaves_ducking_active :
  let '(after, acts, effs) := will_quit quitting_while_ducking in
  isActive ducking_native = true /\
  duckerProcess ducking_native <> None /\
  In globeKeyManager_stop acts /\ In windowsKeyManager_stop acts /\
  audioDuckingManager after = Some ducking_native /\
  effs = [] /\
  isActive (state_of (cleanup mac_confirming_helper ducking_native)) = false /\
  effects_of (cleanup mac_confirming_helper ducking_native) = [eff_kill "SIGTERM"].
Proof.
  vm_compute. repeat split; auto 10. discriminate.
Qed.

End TeardownProps.

(** * The ducking manager's life cycle *)

Module LifecycleProps.
Import Ducking Lifecycle.
Import DuckingProps.

Lemma saved_was_playing_set (key k : string) (m : manager) :
  saved_was_playing key (set_saved k (js_str "was_playing") m) =
    if decide (k = key) then true else saved_was_playing key m.
Proof.
  unfold saved_was_playing, set_saved. cbn [savedVolumes].
  destruct (decide (k = key)) as [-> | Hne].
  - rewrite lookup_insert_eq. reflexivity.
  - rewrite lookup_insert_ne by exact Hne. reflexivity.
Qed.

Lemma saved_was_playing_clear (key k : string) (m : manager) :
  saved_was_playing key (set_saved k js_null m) =
    if decide (k = key) then false else saved_was_playing key m.
Proof.
  unfold saved_was_playing, set_saved. cbn [savedVolumes].
  destruct (decide (k = key)) as [-> | Hne].
  - rewrite lookup_insert_eq. reflexivity.
  - rewrite lookup_insert_ne by exact Hne. reflexivity.
Qed.

(** The fallback called on its own: no helper listener is attached. *)
Lemma startAppleScriptDucking_eq (w : world) (m : manager) :
  is_darwin w = true ->
  startAppleScriptDucking w m = (true, after_fallback w m, fallback_scripts w).
Proof.
  intros Hd. unfold startAppleScriptDucking. rewrite (during_eq w no_listeners m Hd).
  cbv zeta. cbn [pending no_listeners]. rewrite take_nil. reflexivity.
Qed.

(** [startDucking] from an inactive manager off macOS. *)
Lemma startDucking_elsewhere (w : world) (o : options) (m : manager) :
  is_darwin w = false -> isActive m = false -> startDucking w o m = (false, m, []).
Proof.
  intros Hd Hi.
  unfold startDucking, startAppleScriptDucking, startAppleScriptDucking_during.
  run_method. rewrite Hi, Hd. reflexivity.
Qed.

Lemma startDucking_active (w : world) (o : options) (m : manager) :
  isActive m = true -> startDucking w o m = (true, m, []).
Proof. intros Ha. unfold startDucking. run_method. rewrite Ha. reflexivity. Qed.

(** Every way [startDucking] can end from an inactive manager on macOS:
    natively, or by the fallback over what the failed attempt left
    ([m1], [e1]) and what the listener turns taken meanwhile made of it
    ([m2], [e2]). *)
Lemma startDucking_darwin_outcome (w : world) (o : options) (m : manager) :
  is_darwin w = true -> isActive m = false ->
  let lvl := default (duckLevel m) (truthy (level o)) in
  let adv := default (useAdvancedDucking m) (advanced o) in
  let r := startDucking w o m in
  (exists bp,
     getBinaryPath w = Some bp /\ spawn_throws w = false /\
     r = (true,
          set_fallbackMode false
            (set_isActive true
               (set_duckerProcess (Some (Process bp (ducker_args lvl adv))) m)),
          [eff_spawn bp (ducker_args lvl adv)])) \/
  (exists m1 e1 m2 e2,
     r = (true, set_isActive true (paused w m2),
          e1 ++ [eff_check "Music"; eff_check "Spotify"] ++ e2 ++ pause_scripts w) /\
     listener_step (forallb calm (handled_during_fallback w))
       (set_fallbackMode true m1) m2 e2 /\
     ((m1 = m /\ e1 = []) \/
      (exists bp,
         getBinaryPath w = Some bp /\
         (m1 = set_duckerProcess None m \/
          m1 = set_isActive false (set_duckerProcess None m)) /\
         (e1 = [eff_spawn bp (ducker_args lvl adv)] \/
          e1 = [eff_spawn bp (ducker_args lvl adv); eff_kill "SIGTERM"])))).
Proof.
  intros Hd Hi. cbv zeta. rewrite (startDucking_darwin w o m Hd Hi).
  pose proof (startNativeDucking_outcome w
                (default (duckLevel m) (truthy (level o)))
                (default (useAdvancedDucking m) (advanced o)) m) as Hout.
  pose proof (startNativeDucking_pending w
                (default (duckLevel m) (truthy (level o)))
                (default (useAdvancedDucking m) (advanced o)) m) as Hpend.
  cbv zeta in Hout.
  destruct (startNativeDucking w _ _ m) as [[[ok ls] m1] e1].
  unfold value_of, state_of, effects_of in Hout, Hpend. cbn [fst snd] in Hout, Hpend.
  assert (Hfb : exists m2 e2,
            startAppleScriptDucking_during w ls m1 =
              (true, set_isActive true (paused w m2),
               [eff_check "Music"; eff_check "Spotify"] ++ e2 ++ pause_scripts w) /\
            listener_step (forallb calm (handled_during_fallback w))
              (set_fallbackMode true m1) m2 e2).
  { rewrite (during_eq w ls m1 Hd). cbv zeta. rewrite Hpend.
    pose proof (run_listeners_step w (handled_during_fallback w) (closure ls)
                  (set_fallbackMode true m1)) as Hstep.
    destruct (run_listeners w _ _ (set_fallbackMode true m1)) as [[a2 m2] e2].
    exists m2, e2. split; [reflexivity | exact Hstep]. }
  destruct Hfb as (m2 & e2 & Hfb & Hstep).
  destruct Hout as [(Hv & -> & -> & _)
                   | (bp & Hbin & Hsp & _ & [(Hv & -> & ->) | (Hv & Hm1 & He1)])];
    cbn [fst snd] in *.
  - inversion Hv; subst ok ls. right. rewrite Hfb. exists m, [], m2, e2.
    split; [reflexivity|]. split; [exact Hstep|]. left. split; reflexivity.
  - subst ok. left. exists bp. repeat split; assumption.
  - subst ok. right. rewrite Hfb. exists m1, e1, m2, e2.
    split; [reflexivity|]. split; [exact Hstep|]. right. exists bp. repeat split; assumption.
Qed.

(** The returned value and the activity flag agree. *)
Lemma startDucking_value_is_activity (w : world) (o : options) (m : manager) :
  value_of (startDucking w o m) = isActive (state_of (startDucking w o m)).
Proof.
  destruct (isActive m) eqn:Ha.
  - rewrite startDucking_active by exact Ha. symmetry. exact Ha.
  - destruct (is_darwin w) eqn:Hd.
    + destruct (startDucking_darwin_outcome w o m Hd Ha)
        as [(bp & _ & _ & ->) | (m1 & e1 & m2 & e2 & -> & _)]; reflexivity.
    + rewrite startDucking_elsewhere by assumption. symmetry. exact Ha.
Qed.

(** The value [startDucking] returns is the activity flag it leaves
    behind, for every platform, helper, script outcome and prior state. *)
Theorem startDucking_reports_activity (w : world) (o : options) (m : manager) :
  value_of (startDucking w o m) = isActive (state_of (startDucking w o m)).
Proof. exact (startDucking_value_is_activity w o m). Qed.

(** [startDucking] when the helper confirms, as an equation. *)
Lemma startDucking_confirmed_eq (w : world) (o : options) (m : manager) (bp : string) :
  is_darwin w = true -> isActive m = false ->
  getBinaryPath w = Some bp -> spawn_throws w = false -> confirms w ->
  let args := ducker_args (default (duckLevel m) (truthy (level o)))
                          (default (useAdvancedDucking m) (advanced o)) in
  startDucking w o m =
    (true,
     set_fallbackMode false (set_isActive true (set_duckerProcess (Some (Process bp args)) m)),
     [eff_spawn bp args]).
Proof.
  intros Hd Hi Hbin Hsp (pre & data & post & Hev & Hq & Hmark). cbv zeta.
  rewrite (startDucking_darwin w o m Hd Hi).
  unfold startNativeDucking, stream. rewrite Hbin, Hsp, Hev.
  rewrite map_app, <- app_assoc.
  unfold bind at 1, emit at 1. unfold bind at 1, modify at 1. unfold bind at 1.
  rewrite deliver_quiet
    by (rewrite ?quiet_turns_of_events; exact Hq || reflexivity).
  cbn [map app deliver on_turn on_event]. unfold bind at 1.
  rewrite Hmark. cbn. reflexivity.
Qed.

(** A confirmed native start, exactly: one spawn of the binary found,
    with the level and the advanced flag of the call or, failing those,
    the configured ones; no script is run; the manager is active, in
    native mode, and holds the helper. *)
Theorem native_start_confirmed (w : world) (o : options) (m : manager) (bp : string) :
  is_darwin w = true -> isActive m = false ->
  getBinaryPath w = Some bp -> spawn_throws w = false -> confirms w ->
  let args := ducker_args (default (duckLevel m) (truthy (level o)))
                          (default (useAdvancedDucking m) (advanced o)) in
  startDucking w o m =
    (true,
     set_fallbackMode false (set_isActive true (set_duckerProcess (Some (Process bp args)) m)),
     [eff_spawn bp args]).
Proof. exact (startDucking_confirmed_eq w o m bp). Qed.

Lemma native_start_confirmed_witness :
  (is_darwin mac_confirming_helper = true /\ isActive new = false /\
   spawn_throws mac_confirming_helper = false) /\
  startDucking mac_confirming_helper no_options new =
    (true,
     set_fallbackMode false
       (set_isActive true
          (set_duckerProcess
             (Some (Process "/Applications/OpenWhispr.app/Contents/Resources/bin/macos-audio-ducker"
                            ["start"; "--level"; "default"]%string)) new)),
     [eff_spawn "/Applications/OpenWhispr.app/Contents/Resources/bin/macos-audio-ducker"
                ["start"; "--level"; "default"]%string]).
Proof.
  split; [repeat split|].
  apply (native_start_confirmed mac_confirming_helper no_options new
           "/Applications/OpenWhispr.app/Contents/Resources/bin/macos-audio-ducker").
  - reflexivity.
  - reflexivity.
  - reflexivity.
  - reflexivity.
  - exists [], ("DUCKING_STARTED" +:+ LF), []. repeat split.
Defined.

(** The activity flag after [stopDucking]. *)
Lemma stopDucking_inactive_after (w : world) (m : manager) :
  isActive (state_of (stopDucking w m)) = false.
Proof.
  unfold stopDucking. run_method.
  destruct (isActive m) eqn:Ha; cbn [negb]; [| exact Ha].
  destruct (fallbackMode m).
  - rewrite (resumeMusicApp_spec w "Music" "music" m).
    destruct (saved_was_playing "music" m); cbv beta iota;
      rewrite resumeMusicApp_spec;
      match goal with |- context [if ?c then _ else _] => destruct c end; reflexivity.
  - unfold stopNativeDucking. run_method.
    destruct (duckerProcess m); [destruct (kill_throws w)|]; reflexivity.
Qed.

(** [stopDucking] always leaves the manager inactive, whatever the mode,
    the helper handle and the scripts' answers. *)
Theorem stopDucking_ends_inactive (w : world) (m : manager) :
  isActive (state_of (stopDucking w m)) = false.
Proof. exact (stopDucking_inactive_after w m). Qed.

(** [stopDucking] in native mode, as an equation. *)
Lemma stopDucking_native_eq (w : world) (m : manager) :
  isActive m = true -> fallbackMode m = false ->
  stopDucking w m =
    (tt,
     set_fallbackMode false (set_isActive false (set_duckerProcess None m)),
     match duckerProcess m with Some _ => [eff_kill "SIGTERM"] | None => [] end).
Proof.
  intros Ha Hf. unfold stopDucking, stopNativeDucking. run_method.
  rewrite Ha. cbn [negb]. cbv beta. rewrite Hf.
  destruct m as [p a sv dl ad f]. cbn in *. subst.
  destruct p; [destruct (kill_throws w)|]; reflexivity.
Qed.

(** [stopDucking] in native mode, exactly: SIGTERM is sent once to the
    helper if one is held, whether or not [kill] raises; the handle is
    dropped; no script is run and [savedVolumes] is not touched. *)
Theorem stopDucking_native (w : world) (m : manager) :
  isActive m = true -> fallbackMode m = false ->
  stopDucking w m =
    (tt,
     set_fallbackMode false (set_isActive false (set_duckerProcess None m)),
     match duckerProcess m with Some _ => [eff_kill "SIGTERM"] | None => [] end).
Proof. exact (stopDucking_native_eq w m). Qed.

Lemma stopDucking_native_witness :
  (isActive ducking_native = true /\ fallbackMode ducking_native = false) /\
  stopDucking mac_confirming_helper ducking_native =
    (tt,
     set_fallbackMode false (set_isActive false (set_duckerProcess None ducking_native)),
     match duckerProcess ducking_native with
     | Some _ => [eff_kill "SIGTERM"]
     | None => []
     end).
Proof.
  split; [split; reflexivity|].
  apply (stopDucking_native mac_confirming_helper ducking_native); reflexivity.
Defined.

(** A native session leaves no trace: from a manager at rest, a confirmed
    start followed by a stop gives the manager back field for field, and
    all that happened outside is one spawn and one SIGTERM. *)
Theorem native_session_round_trip (w w' : world) (o : options) (m : manager) (bp : string) :
  is_darwin w = true -> at_rest m ->
  getBinaryPath w = Some bp -> spawn_throws w = false -> confirms w ->
  let begun := startDucking w o m in
  let ended := stopDucking w' (state_of begun) in
  state_of ended = m /\
  effects_of begun ++ effects_of ended =
    [eff_spawn bp (ducker_args (default (duckLevel m) (truthy (level o)))
                               (default (useAdvancedDucking m) (advanced o)));
     eff_kill "SIGTERM"].
Proof.
  intros Hd (Hi & Hf & Hp & _ & _) Hbin Hsp Hconf. cbv zeta.
  rewrite (startDucking_confirmed_eq w o m bp Hd Hi Hbin Hsp Hconf).
  unfold state_of, effects_of. cbn [fst snd].
  rewrite !stopDucking_native_eq by reflexivity.
  cbn [fst snd duckerProcess set_fallbackMode set_isActive set_duckerProcess].
  split; [| reflexivity].
  destruct m as [p a sv dl ad f]. cbn in *. subst. reflexivity.
Qed.

Lemma native_session_round_trip_witness :
  let begun := startDucking mac_confirming_helper no_options new in
  let ended := stopDucking mac_silent_helper (state_of begun) in
  (is_darwin mac_confirming_helper = true /\ at_rest new) /\
  state_of ended = new /\
  effects_of begun ++ effects_of ended =
    [eff_spawn "/Applications/OpenWhispr.app/Contents/Resources/bin/macos-audio-ducker"
       (ducker_args (default (duckLevel new) (truthy (level no_options)))
                    (default (useAdvancedDucking new) (advanced no_options)));
     eff_kill "SIGTERM"].
Proof.
  cbv zeta. split; [split; [reflexivity | repeat split]|].
  apply (native_session_round_trip mac_confirming_helper mac_silent_helper no_options new
           "/Applications/OpenWhispr.app/Contents/Resources/bin/macos-audio-ducker").
  - reflexivity.
  - repeat split.
  - reflexivity.
  - reflexivity.
  - exists [], ("DUCKING_STARTED" +:+ LF), []. repeat split.
Defined.

(** What a failed native attempt leaves of a manager at rest: the manager
    itself, and the listeners with the turns the world names. *)
Lemma failed_attempt_at_rest (w : world) (lvl : string) (adv : bool) (m : manager) :
  at_rest m -> native_failure w ->
  exists ls e1,
    startNativeDucking w lvl adv m = ((false, ls), m, e1) /\
    take (fallback_window w) (pending ls) = handled_during_fallback w /\
    forall e, In e e1 -> is_spawn e = true \/ is_kill e = true.
Proof.
  intros (Hi & Hf & Hp & _ & _) Hfail.
  pose proof (startNativeDucking_failure w lvl adv m Hfail) as Hval.
  pose proof (startNativeDucking_pending w lvl adv m) as Hpend.
  pose proof (startNativeDucking_outcome w lvl adv m) as Hout. cbv zeta in Hout.
  destruct (startNativeDucking w lvl adv m) as [[[ok ls] m1] e1].
  unfold value_of, state_of, effects_of in *. cbn [fst snd] in *. subst ok.
  assert (Hsame : set_duckerProcess None m = m /\
                  set_isActive false (set_duckerProcess None m) = m).
  { destruct m as [p a sv dl ad f]. cbn in *. subst. split; reflexivity. }
  destruct Hsame as [Hs1 Hs2].
  exists ls, e1.
  destruct Hout as [(_ & -> & -> & _) | (bp & _ & _ & _ & [(Habs & _) | (_ & Hm1 & He1)])].
  - split; [reflexivity|]. split; [exact Hpend|]. intros e [].
  - discriminate Habs.
  - split; [| split; [exact Hpend|]].
    + destruct Hm1 as [Hm1 | Hm1]; rewrite Hm1; [rewrite Hs1 | rewrite Hs2]; reflexivity.
    + intros e He. destruct He1 as [-> | ->]; cbn in He;
        repeat destruct He as [<- | He]; try contradiction; cbn; auto.
Qed.

(** A fallback start over a manager at rest, as an equation: listener
    turns that do not confirm leave no mark. *)
Lemma startDucking_fallback_at_rest (w : world) (o : options) (m : manager) :
  is_darwin w = true -> at_rest m -> native_failure w -> no_late_confirmation w ->
  exists e1,
    startDucking w o m = (true, after_fallback w m, e1 ++ fallback_scripts w) /\
    forall e, In e e1 -> is_spawn e = true \/ is_kill e = true.
Proof.
  intros Hd Hrest Hfail Hcalm.
  pose proof Hrest as (Hi & Hf & Hp & _ & _).
  rewrite (startDucking_darwin w o m Hd Hi).
  destruct (failed_attempt_at_rest w
              (default (duckLevel m) (truthy (level o)))
              (default (useAdvancedDucking m) (advanced o)) m Hrest Hfail)
    as (ls & e1 & -> & Hpend & He1).
  exists e1. split; [| exact He1]. cbn [fst snd].
  rewrite (during_eq w ls m Hd). cbv zeta. rewrite Hpend.
  destruct (run_listeners_calm_at_rest w (handled_during_fallback w) (closure ls)
              (set_fallbackMode true m) Hcalm Hi Hp) as [-> ->].
  reflexivity.
Qed.

(** A fallback start and the stop that follows, from a manager at rest. *)
Lemma fallback_session_eq (w w' : world) (o : options) (m : manager) :
  is_darwin w = true -> at_rest m -> native_failure w -> no_late_confirmation w ->
  let begun := startDucking w o m in
  let ended := stopDucking w' (state_of begun) in
  state_of ended = m /\
  forall app, In app known_players ->
    (In (eff_play app) (effects_of ended) <-> pause_succeeds w app = true).
Proof.
  intros Hd Hrest Hfail Hcalm. cbv zeta.
  pose proof Hrest as (Hi & Hf & Hp & Hmusic & Hspotify).
  destruct (startDucking_fallback_at_rest w o m Hd Hrest Hfail Hcalm) as (e1 & -> & _).
  unfold state_of at 1 2. cbn [fst snd].
  assert (Hm : saved_was_playing "music" (after_fallback w m) = pause_succeeds w "Music").
  { unfold after_fallback, paused.
    destruct (pause_succeeds w "Music"), (pause_succeeds w "Spotify");
      unfold saved_was_playing; cbn;
      repeat first [rewrite lookup_insert_eq | rewrite lookup_insert_ne by discriminate];
      rewrite ?Hmusic; reflexivity. }
  assert (Hs : saved_was_playing "spotify" (after_fallback w m) = pause_succeeds w "Spotify").
  { unfold after_fallback, paused.
    destruct (pause_succeeds w "Music"), (pause_succeeds w "Spotify");
      unfold saved_was_playing; cbn;
      repeat first [rewrite lookup_insert_eq | rewrite lookup_insert_ne by discriminate];
      rewrite ?Hspotify; reflexivity. }
  assert (Hfall : fallbackMode (after_fallback w m) = true).
  { unfold after_fallback, paused.
    destruct (pause_succeeds w "Music"), (pause_succeeds w "Spotify"); reflexivity. }
  split.
  - unfold stopDucking. run_method.
    replace (isActive (after_fallback w m)) with true by reflexivity.
    cbn [negb]. cbv beta. rewrite Hfall.
    rewrite (resumeMusicApp_spec w' "Music" "music"), Hm.
    destruct (pause_succeeds w "Music") eqn:Pm; cbv beta iota;
      rewrite resumeMusicApp_spec, ?saved_was_playing_other by discriminate;
      rewrite Hs; destruct (pause_succeeds w "Spotify") eqn:Ps; cbn [fst snd];
      unfold after_fallback, paused; rewrite ?Pm, ?Ps;
      destruct m as [p a sv dl ad f]; cbn in *; subst;
      unfold set_fallbackMode, set_isActive, set_saved; cbn; f_equal;
      try (apply map_eq; intros i;
           destruct (decide (i = "music"%string)) as [Hi1 | ?];
           destruct (decide (i = "spotify"%string)) as [Hi2 | ?];
           subst; try discriminate; simplify_map_eq; done).
  - intros app Happ. unfold state_of. cbn [fst snd].
    rewrite stopDucking_fallback_effects; [| reflexivity | exact Hfall].
    rewrite Hm, Hs.
    destruct Happ as [<- | [<- | []]];
      destruct (pause_succeeds w "Music"), (pause_succeeds w "Spotify"); cbn;
      (split; [intros H; repeat destruct H as [H | H];
                 try discriminate; try contradiction; reflexivity
              | intros H; try discriminate; auto]).
Qed.

(** A fallback session leaves no trace either: from a manager at
    rest, a start whose native attempt fails and whose helper delivers no
    confirmation while the fallback is under way, and the stop called on
    the manager that start leaves, give the manager back field for field,
    and a known player is sent a play command exactly when the start had
    paused it. *)
Theorem fallback_session_round_trip (w w' : world) (o : options) (m : manager) :
  is_darwin w = true -> at_rest m -> native_failure w -> no_late_confirmation w ->
  let begun := startDucking w o m in
  let ended := stopDucking w' (state_of begun) in
  state_of ended = m /\
  forall app, In app known_players ->
    (In (eff_play app) (effects_of ended) <-> pause_succeeds w app = true).
Proof. exact (fallback_session_eq w w' o m). Qed.

Lemma fallback_session_round_trip_witness :
  let begun := startDucking mac_silent_helper no_options new in
  let ended := stopDucking mac_silent_helper (state_of begun) in
  (is_darwin mac_silent_helper = true /\ at_rest new /\
   no_late_confirmation mac_silent_helper) /\
  state_of ended = new /\
  forall app, In app known_players ->
    (In (eff_play app) (effects_of ended) <-> pause_succeeds mac_silent_helper app = true).
Proof.
  cbv zeta. split; [split; [reflexivity | split; [repeat split | reflexivity]]|].
  apply (fallback_session_round_trip mac_silent_helper mac_silent_helper no_options new).
  - reflexivity.
  - repeat split.
  - apply confirmation_timeout. reflexivity.
  - reflexivity.
Defined.

(** From a fresh manager, with no confirmation arriving late, the stop
    of a fallback session resumes exactly the players its start paused. *)
Lemma fallback_session_resumes_what_it_paused (w : world) (app : string) :
  is_darwin w = true -> native_failure w -> no_late_confirmation w ->
  In app known_players ->
  let begun := startDucking w no_options new in
  let ended := stopDucking w (state_of begun) in
  In (eff_play app) (effects_of ended) <-> pause_succeeds w app = true.
Proof.
  intros Hd Hfail Hcalm Happ.
  assert (Hrest : at_rest new) by (repeat split).
  destruct (fallback_session_eq w w no_options new Hd Hrest Hfail Hcalm) as [_ H].
  exact (H app Happ).
Qed.

(** [stopDucking] in fallback mode, as an equation. *)
Lemma stopDucking_fallback_eq (w : world) (m : manager) :
  isActive m = true -> fallbackMode m = true ->
  stopDucking w m =
    (tt, set_fallbackMode false (set_isActive false (resumed m)),
     (if saved_was_playing "music" m then [eff_play "Music"] else []) ++
     (if saved_was_playing "spotify" m then [eff_play "Spotify"] else [])).
Proof.
  intros Ha Hf. unfold stopDucking, resumed. run_method.
  rewrite Ha. cbn [negb]. cbv beta. rewrite Hf.
  rewrite (resumeMusicApp_spec w "Music" "music" m).
  destruct (saved_was_playing "music" m); cbv beta iota;
    rewrite resumeMusicApp_spec;
    rewrite ?(saved_was_playing_other "music" "spotify") by discriminate;
    destruct (saved_was_playing "spotify" m); reflexivity.
Qed.

Lemma resumed_clears (key : string) (m : manager) :
  saved_was_playing key (resumed m) = true ->
  saved_was_playing key m = true /\ key <> "music"%string /\ key <> "spotify"%string.
Proof.
  unfold resumed.
  destruct (saved_was_playing "music" m) eqn:Hm;
    rewrite ?(saved_was_playing_other "music" "spotify") by discriminate;
    destruct (saved_was_playing "spotify" m) eqn:Hs;
    rewrite ?saved_was_playing_clear;
    repeat case_decide; subst; intros Hkey; try discriminate;
    repeat split; congruence.
Qed.

Lemma paused_saved (w : world) (key : string) (m : manager) :
  saved_was_playing key (paused w m) = true ->
  key = "music"%string \/ key = "spotify"%string \/ saved_was_playing key m = true.
Proof.
  unfold paused.
  destruct (pause_succeeds w "Music"), (pause_succeeds w "Spotify");
    rewrite ?saved_was_playing_set; repeat case_decide; subst; auto.
Qed.

Lemma well_formed_new : well_formed new.
Proof.
  split; [| split].
  - intros _. split; reflexivity.
  - intros _. reflexivity.
  - intros key H. exfalso. unfold saved_was_playing in H. cbn in H.
    destruct (decide (key = "music"%string)) as [-> | ?];
      [| destruct (decide (key = "spotify"%string)) as [-> | ?]];
      simplify_map_eq; discriminate.
Qed.

Lemma startDucking_well_formed (w : world) (o : options) (m : manager) :
  well_formed m -> no_late_confirmation w ->
  well_formed (state_of (startDucking w o m)).
Proof.
  intros Hwf Hcalm.
  destruct (isActive m) eqn:Ha.
  { rewrite startDucking_active by exact Ha. exact Hwf. }
  destruct (is_darwin w) eqn:Hd.
  2:{ rewrite startDucking_elsewhere by assumption. exact Hwf. }
  destruct Hwf as (Hinact & Hfb & Hsaved).
  destruct (Hinact Ha) as [Hf Hp].
  destruct (startDucking_darwin_outcome w o m Hd Ha)
    as [(bp & _ & _ & ->) | (m1 & e1 & m2 & e2 & -> & Hstep & Hm1)];
    unfold state_of; cbn [fst snd].
  - split; [| split]; cbn; try discriminate.
    intros key Hk. destruct (Hsaved key Hk) as (_ & Habs & _). congruence.
  - unfold no_late_confirmation in Hcalm. rewrite Hcalm in Hstep.
    destruct Hstep as (Hsv & _ & _ & _ & Hfm & _ & Hproc).
    specialize (Hfm eq_refl). cbn [set_fallbackMode fallbackMode] in Hfm.
    assert (Hm1' : duckerProcess m1 = None /\ savedVolumes m1 = savedVolumes m).
    { destruct Hm1 as [[-> _] | (bp & _ & [-> | ->] & _)]; split; auto. }
    destruct Hm1' as [Hp1 Hs1].
    destruct (Hproc Hp1) as [Hp2 _].
    destruct (paused_fields w m2) as (_ & Hpf & Hpp & _).
    split; [| split].
    + cbn. discriminate.
    + intros _. cbn [set_isActive duckerProcess]. rewrite Hpp. exact Hp2.
    + intros key Hk.
      change (saved_was_playing key (paused w m2) = true) in Hk.
      split; [| split; [reflexivity | cbn [set_isActive fallbackMode]; congruence]].
      destruct (paused_saved w key m2 Hk) as [? | [? | Hold]]; auto.
      assert (Hkm : saved_was_playing key m = true).
      { unfold saved_was_playing in *. cbn [set_fallbackMode savedVolumes] in Hsv.
        rewrite <- Hs1, <- Hsv. exact Hold. }
      destruct (Hsaved key Hkm) as (_ & Habs & _). congruence.
Qed.

Lemma stopDucking_well_formed (w : world) (m : manager) :
  well_formed m -> well_formed (state_of (stopDucking w m)).
Proof.
  intros Hwf.
  destruct (isActive m) eqn:Ha.
  2:{ assert (Heq : stopDucking w m = (tt, m, []))
        by (unfold stopDucking; run_method; rewrite Ha; reflexivity).
      rewrite Heq. exact Hwf. }
  destruct Hwf as (Hinact & Hfb & Hsaved).
  destruct (fallbackMode m) eqn:Hf.
  - rewrite stopDucking_fallback_eq by assumption. unfold state_of. cbn [fst snd].
    split; [| split]; cbn.
    + intros _. split; [reflexivity|].
      unfold resumed.
      destruct (saved_was_playing "music" m);
        match goal with |- context [if ?c then _ else _] => destruct c end;
        cbn; auto.
    + discriminate.
    + intros key Hk. exfalso.
      change (saved_was_playing key (resumed m) = true) in Hk.
      destruct (resumed_clears key m Hk) as (Hold & Hn1 & Hn2).
      destruct (Hsaved key Hold) as ([? | ?] & _); contradiction.
  - rewrite stopDucking_native_eq by assumption. unfold state_of. cbn [fst snd].
    split; [| split]; cbn.
    + intros _. split; reflexivity.
    + discriminate.
    + intros key Hk. exfalso.
      change (saved_was_playing key m = true) in Hk.
      destruct (Hsaved key Hk) as (_ & _ & Habs). congruence.
Qed.

(** The fields stay well formed across every method: from a
    well-formed manager, [stopDucking], [configure] and [getStatus] each
    end in one, and so does [startDucking] when the helper delivers no
    confirmation while the fallback is under way (with one, the fallback
    ends out of fallback mode with a "was_playing" slot set).  Each
    method is taken as one call, from its first statement to the
    settling of its promise. *)
Theorem methods_keep_well_formed (w : world) (o : options) (m : manager) :
  well_formed m ->
  (no_late_confirmation w -> well_formed (state_of (startDucking w o m))) /\
  well_formed (state_of (stopDucking w m)) /\
  well_formed (state_of (configure o m)) /\
  well_formed (state_of (getStatus w m)).
Proof.
  intros Hwf. split; [| split; [| split]].
  - intros Hcalm. apply startDucking_well_formed; assumption.
  - apply stopDucking_well_formed. exact Hwf.
  - unfold configure. run_method.
    destruct (truthy (level o)), (advanced o); exact Hwf.
  - exact Hwf.
Qed.

Lemma methods_keep_well_formed_witness :
  (well_formed new /\ no_late_confirmation mac_silent_helper) /\
  well_formed (state_of (startDucking mac_silent_helper no_options new)) /\
  well_formed (state_of (stopDucking mac_silent_helper new)) /\
  well_formed (state_of (configure no_options new)) /\
  well_formed (state_of (getStatus mac_silent_helper new)).
Proof.
  split; [split; [exact well_formed_new | reflexivity]|].
  destruct (methods_keep_well_formed mac_silent_helper no_options new well_formed_new)
    as (Hstart & Hrest).
  split; [apply Hstart; reflexivity | exact Hrest].
Defined.

(** Without that proviso the start can leave the fields ill formed: the
    late confirmation clears [fallbackMode] over a "was_playing" slot. *)
Lemma late_confirmation_ill_formed :
  well_formed new /\
  ~ well_formed (state_of (startDucking mac_late_confirmation no_options new)).
Proof.
  split; [exact well_formed_new|].
  intros (_ & _ & Hsaved).
  destruct (Hsaved "music"%string eq_refl) as (_ & _ & Habs).
  vm_compute in Habs. discriminate Habs.
Qed.

Lemma pause_scripts_no_spawn (w : world) : List.filter is_spawn (pause_scripts w) = [].
Proof.
  unfold pause_scripts.
  destruct (spotify_answers_first w), (playing w "Music"), (playing w "Spotify"); reflexivity.
Qed.

Lemma kills_no_spawn (e : list effect) :
  (forall x, In x e -> x = eff_kill "SIGTERM") -> List.filter is_spawn e = [].
Proof.
  induction e as [| x e IH]; intros H; [reflexivity|].
  cbn. rewrite (H x (or_introl eq_refl)). cbn. apply IH.
  intros y Hy. apply H. right. exact Hy.
Qed.

(** What each method may do outside the manager.  [startDucking] never
    sends a play command and spawns the helper at most once;
    [stopDucking] only ever sends SIGTERM or play commands, so it never
    spawns a helper nor probes or pauses a player; [configure] and
    [getStatus] do nothing outside. *)
Theorem effects_discipline (w : world) (o : options) (m : manager) :
  (forall e, In e (effects_of (startDucking w o m)) -> is_play e = false) /\
  (length (List.filter is_spawn (effects_of (startDucking w o m))) <= 1)%nat /\
  (forall e, In e (effects_of (stopDucking w m)) -> is_kill e = true \/ is_play e = true) /\
  effects_of (configure o m) = [] /\
  effects_of (getStatus w m) = [].
Proof.
  split; [| split; [| split; [| split]]].
  - destruct (isActive m) eqn:Ha.
    { rewrite startDucking_active by exact Ha. intros e []. }
    destruct (is_darwin w) eqn:Hd.
    2:{ rewrite startDucking_elsewhere by assumption. intros e []. }
    destruct (startDucking_darwin_outcome w o m Hd Ha)
      as [(bp & _ & _ & ->) | (m1 & e1 & m2 & e2 & -> & Hstep & He1)];
      unfold effects_of; cbn [snd].
    + intros e [<- | []]. reflexivity.
    + destruct Hstep as (_ & _ & _ & Hkills & _).
      intros e He. apply in_app_or in He as [He | He].
      * destruct He1 as [[_ ->] | (bp & _ & _ & [-> | ->])]; cbn in He;
          repeat destruct He as [<- | He]; try contradiction; reflexivity.
      * apply in_app_or in He as [He | He].
        { cbn in He. repeat destruct He as [<- | He]; try contradiction; reflexivity. }
        apply in_app_or in He as [He | He].
        { rewrite (Hkills e He). reflexivity. }
        destruct (pause_scripts_kinds w e He) as [[-> _] | [-> _]]; reflexivity.
  - destruct (isActive m) eqn:Ha.
    { rewrite startDucking_active by exact Ha. cbn. lia. }
    destruct (is_darwin w) eqn:Hd.
    2:{ rewrite startDucking_elsewhere by assumption. cbn. lia. }
    destruct (startDucking_darwin_outcome w o m Hd Ha)
      as [(bp & _ & _ & ->) | (m1 & e1 & m2 & e2 & -> & Hstep & He1)];
      unfold effects_of; cbn [snd].
    + cbn. lia.
    + destruct Hstep as (_ & _ & _ & Hkills & _).
      rewrite !List.filter_app, !length_app.
      rewrite pause_scripts_no_spawn, (kills_no_spawn e2 Hkills).
      destruct He1 as [[_ ->] | (bp & _ & _ & [-> | ->])]; cbn; lia.
  - destruct (isActive m) eqn:Ha.
    2:{ assert (Heq : stopDucking w m = (tt, m, []))
          by (unfold stopDucking; run_method; rewrite Ha; reflexivity).
        rewrite Heq. intros e []. }
    destruct (fallbackMode m) eqn:Hf.
    + rewrite stopDucking_fallback_eq by assumption. unfold effects_of. cbn [snd].
      destruct (saved_was_playing "music" m), (saved_was_playing "spotify" m); cbn;
        intros e He; repeat destruct He as [<- | He]; try contradiction; auto.
    + rewrite stopDucking_native_eq by assumption. unfold effects_of. cbn [snd].
      destruct (duckerProcess m); cbn; intros e He;
        repeat destruct He as [<- | He]; try contradiction; auto.
  - unfold configure. run_method.
    destruct (truthy (level o)), (advanced o); reflexivity.
  - reflexivity.
Qed.

(** With the binary in place and [spawn] not raising, the first thing a
    start from an inactive manager does on macOS is spawn the helper with
    the effective level and flag. *)
Lemma spawn_comes_first (w : world) (o : options) (m : manager) (bp : string) :
  is_darwin w = true -> isActive m = false ->
  getBinaryPath w = Some bp -> spawn_throws w = false ->
  head (effects_of (startDucking w o m)) =
    Some (eff_spawn bp (ducker_args (default (duckLevel m) (truthy (level o)))
                                    (default (useAdvancedDucking m) (advanced o)))).
Proof.
  intros Hd Hi Hbin Hsp. rewrite (startDucking_darwin w o m Hd Hi).
  pose proof (startNativeDucking_outcome w
                (default (duckLevel m) (truthy (level o)))
                (default (useAdvancedDucking m) (advanced o)) m) as Hout.
  cbv zeta in Hout.
  destruct (startNativeDucking w _ _ m) as [[[ok ls] m1] e1].
  unfold value_of, state_of, effects_of in *. cbn [fst snd] in *.
  destruct Hout as [(_ & _ & _ & [Hn | Hn]) | (bp' & Hbin' & _ & _ & Hcases)]; try congruence.
  assert (bp' = bp) by congruence. subst bp'.
  destruct Hcases as [(-> & _ & ->) | (-> & _ & [-> | ->])].
  - reflexivity.
  - destruct (startAppleScriptDucking_during w ls m1) as [[b m2] e2]. reflexivity.
  - destruct (startAppleScriptDucking_during w ls m1) as [[b m2] e2]. reflexivity.
Qed.

(** [configure] sets the defaults of later starts and nothing else: the
    activity flag, the mode, the helper handle and [savedVolumes] stay as
    they are; a start without options then launches the helper with the
    configured level and flag, and a start with options with its own.  A
    missing or empty level and a missing flag leave the defaults alone. *)
Theorem configure_sets_defaults
    (w : world) (m : manager) (bp : string) (a : Ascii.ascii) (l : string) (adv : bool) :
  is_darwin w = true -> isActive m = false ->
  getBinaryPath w = Some bp -> spawn_throws w = false ->
  let configured :=
    state_of (configure {| level := Some (String a l); advanced := Some adv |} m) in
  (isActive configured = isActive m /\ fallbackMode configured = fallbackMode m /\
   duckerProcess configured = duckerProcess m /\ savedVolumes configured = savedVolumes m) /\
  head (effects_of (startDucking w no_options configured)) =
    Some (eff_spawn bp (ducker_args (String a l) adv)) /\
  (forall (a' : Ascii.ascii) (l' : string) (adv' : bool),
     head (effects_of (startDucking w {| level := Some (String a' l'); advanced := Some adv' |}
                         configured)) =
       Some (eff_spawn bp (ducker_args (String a' l') adv'))) /\
  configure {| level := Some EmptyString; advanced := None |} m = (tt, m, []) /\
  configure no_options m = (tt, m, []).
Proof.
  intros Hd Hi Hbin Hsp. cbv zeta.
  split; [repeat split|]. split; [| split; [| split; reflexivity]].
  - rewrite (spawn_comes_first w no_options
               (state_of (configure {| level := Some (String a l); advanced := Some adv |} m))
               bp Hd Hi Hbin Hsp).
    reflexivity.
  - intros a' l' adv'.
    rewrite (spawn_comes_first w {| level := Some (String a' l'); advanced := Some adv' |}
               (state_of (configure {| level := Some (String a l); advanced := Some adv |} m))
               bp Hd Hi Hbin Hsp).
    reflexivity.
Qed.

Lemma configure_sets_defaults_witness :
  head (effects_of (startDucking mac_silent_helper no_options
          (state_of (configure {| level := Some "max"%string; advanced := Some true |} new)))) =
    Some (eff_spawn "/Applications/OpenWhispr.app/Contents/Resources/bin/macos-audio-ducker"
                    ["start"; "--level"; "max"; "--advanced"]%string).
Proof.
  destruct (configure_sets_defaults mac_silent_helper new
              "/Applications/OpenWhispr.app/Contents/Resources/bin/macos-audio-ducker"
              (Ascii.ascii_of_nat 109) "ax" true eq_refl eq_refl eq_refl eq_refl)
    as (_ & Hspawn & _).
  exact Hspawn.
Defined.

(** [getBinaryPath] returns the first candidate that exists, and [null]
    only when none does; native ducking is reported available exactly on
    macOS with some candidate present. *)
Theorem getBinaryPath_first_existing (w : world) :
  match getBinaryPath w with
  | Some p =>
      exists before after,
        possiblePaths w = before ++ p :: after /\
        existsSync w p = true /\
        forall q, In q before -> existsSync w q = false
  | None => forall q, In q (possiblePaths w) -> existsSync w q = false
  end /\
  (isNativeDuckingAvailable w = true <->
   is_darwin w = true /\ exists p, In p (possiblePaths w) /\ existsSync w p = true).
Proof.
  assert (Hfind : forall l,
    match List.find (existsSync w) l with
    | Some p => exists before after,
        l = before ++ p :: after /\ existsSync w p = true /\
        forall q, In q before -> existsSync w q = false
    | None => forall q, In q l -> existsSync w q = false
    end).
  { induction l as [| x l IH]; cbn.
    - intros q [].
    - destruct (existsSync w x) eqn:Hx.
      + exists [], l. repeat split; [exact Hx | intros q []].
      + destruct (List.find (existsSync w) l) as [p |].
        * destruct IH as (before & after & -> & Hp & Hbefore).
          exists (x :: before), after. repeat split; [exact Hp|].
          intros q [<- | Hq]; auto.
        * intros q [<- | Hq]; auto. }
  split; [apply Hfind|].
  unfold isNativeDuckingAvailable, getBinaryPath.
  specialize (Hfind (possiblePaths w)).
  destruct (is_darwin w); cbn [negb].
  - destruct (List.find (existsSync w) (possiblePaths w)) as [p |].
    + destruct Hfind as (before & after & Heq & Hp & _).
      split; [intros _ | reflexivity]. split; [reflexivity|].
      exists p. split; [| exact Hp]. rewrite Heq. apply in_or_app. right. left. reflexivity.
    + split; [discriminate|]. intros (_ & p & Hin & Hp).
      rewrite (Hfind p Hin) in Hp. discriminate.
  - split; [discriminate | intros [? _]; discriminate].
Qed.

End LifecycleProps.

(** * The native helper and its parent *)

Module HelperProps.
Import Ducking Lifecycle Helper.
Import DuckingProps LifecycleProps.

(** The events of a helper launched by the manager whose engine starts. *)
Lemma helper_args_started (bp lvl : string) (adv : bool) :
  events (main (bp :: ducker_args lvl adv) engine_started) =
    [stdout_data ("DUCKING_STARTED" +:+ LF)].
Proof.
  unfold main, ducker_args. cbn [app String.eqb Ascii.eqb Bool.eqb].
  destruct (parse_options _ _ _) as [l a]. reflexivity.
Qed.

(** The helper reads back what the manager writes.  Launched with the
    manager's argument list, for any level string and flag, and with the
    engine starting, it prints the start marker and keeps running with
    the flag as given and the level named by the string, or the default
    level when the string names none. *)
Theorem helper_reads_manager_arguments (bp lvl : string) (adv : bool) :
  main (bp :: ducker_args lvl adv) engine_started =
    ([to_stdout "DUCKING_STARTED"],
     running (match rawValue lvl with Some l => l | None => level_default end) adv).
Proof.
  unfold main, ducker_args. cbn [app String.eqb Ascii.eqb Bool.eqb].
  destruct adv; cbn; destruct (rawValue lvl); reflexivity.
Qed.

(** The helper prints the start marker as a line of its own exactly when
    it ends up running, and it runs exactly when the command is [start]
    and the engine started; every other invocation exits. *)
Theorem helper_confirms_only_when_started (args : list string) (engine : engine_result) :
  (In (to_stdout "DUCKING_STARTED") (fst (main args engine)) <->
   exists l a, snd (main args engine) = running l a) /\
  ((exists l a, snd (main args engine) = running l a) <->
   exists prog options, args = prog :: "start"%string :: options /\ engine = engine_started).
Proof.
  destruct args as [| prog [| command options]].
  - cbn. split; split.
    + intros [H | []]. discriminate H.
    + intros (l & a & H). discriminate H.
    + intros (l & a & H). discriminate H.
    + intros (p & o & H & _). discriminate H.
  - cbn. split; split.
    + intros [H | []]. discriminate H.
    + intros (l & a & H). discriminate H.
    + intros (l & a & H). discriminate H.
    + intros (p & o & H & _). discriminate H.
  - unfold main.
    destruct (String.eqb command "start") eqn:Hstart.
    + apply String.eqb_eq in Hstart. subst command.
      destruct (parse_options options level_default false) as [l a].
      destruct engine as [| description]; cbn; split; split.
      * intros _. eauto.
      * intros _. left. reflexivity.
      * intros _. eauto.
      * intros _. eauto.
      * intros [H | [H | []]]; discriminate H.
      * intros (l' & a' & H). discriminate H.
      * intros (l' & a' & H). discriminate H.
      * intros (p & o & _ & H). discriminate H.
    + assert (Hne : forall p o, prog :: command :: options <> p :: "start"%string :: o).
      { intros p o H. inversion H. subst command. cbn in Hstart. discriminate Hstart. }
      destruct (String.eqb command "stop"); [| destruct (_ || _)]; cbn; split; split;
        try (intros (l & a & H); discriminate H);
        try (intros (p & o & H & _); exfalso; exact (Hne p o H));
        intros H; repeat destruct H as [H | H]; try contradiction; discriminate H.
Qed.

(** A start whose native attempt fails, with no confirmation delivered
    while the fallback is under way, ends active in fallback mode. *)
Lemma failed_start_in_fallback_mode (w : world) (o : options) (m : manager) :
  is_darwin w = true -> isActive m = false -> native_failure w ->
  no_late_confirmation w ->
  let r := startDucking w o m in
  value_of r = true /\ isActive (state_of r) = true /\ fallbackMode (state_of r) = true.
Proof.
  intros Hd Hi Hfail Hcalm. cbv zeta.
  destruct (startDucking_fallback_eq w o m Hd Hi Hfail) as (ls & m1 & e1 & _ & Heq).
  cbv zeta in Heq. rewrite Heq. clear Heq.
  pose proof (run_listeners_step w (handled_during_fallback w) (closure ls)
                (set_fallbackMode true m1)) as (_ & _ & _ & _ & Hf & _ & _).
  unfold no_late_confirmation in Hcalm. rewrite Hcalm in Hf. specialize (Hf eq_refl).
  destruct (run_listeners w (handled_during_fallback w) (closure ls)
              (set_fallbackMode true m1)) as [[a2 m2] e2].
  unfold value_of, state_of in *. cbn [fst snd] in *.
  split; [reflexivity|]. split; [reflexivity|].
  destruct (paused_fields w m2) as (_ & Hpf & _).
  cbn [set_isActive fallbackMode]. rewrite Hpf. exact Hf.
Qed.

(** Manager and helper together: when the events the manager sees are
    those of the helper it launched, and nothing holding the start marker
    arrives while a fallback is under way, the start succeeds either way,
    and the session is native exactly when the audio engine started; when
    the engine fails the manager falls back. *)
Theorem engine_decides_the_mode
    (w : world) (o : options) (m : manager) (bp : string) (engine : engine_result) :
  is_darwin w = true -> isActive m = false ->
  getBinaryPath w = Some bp -> spawn_throws w = false ->
  ducker_events w =
    events (main (bp :: ducker_args (default (duckLevel m) (truthy (level o)))
                                    (default (useAdvancedDucking m) (advanced o)))
                 engine) ->
  no_late_confirmation w ->
  let r := startDucking w o m in
  value_of r = true /\ isActive (state_of r) = true /\
  fallbackMode (state_of r) =
    match engine with engine_started => false | engine_failed _ => true end.
Proof.
  intros Hd Hi Hbin Hsp Hev Hcalm. cbv zeta.
  destruct engine as [| description].
  - rewrite helper_args_started in Hev.
    rewrite (startDucking_confirmed_eq w o m bp Hd Hi Hbin Hsp).
    + repeat split.
    + exists [], ("DUCKING_STARTED" +:+ LF), []. rewrite Hev. repeat split.
  - assert (Hfail : native_failure w).
    { apply (early_exit w
               [stderr_data (("ERROR: " +:+ description) +:+ LF);
                stderr_data ("ERROR: Failed to start audio ducking" +:+ LF)]
               [] 1).
      - rewrite Hev. unfold main, ducker_args.
        cbn [app String.eqb Ascii.eqb Bool.eqb].
        destruct (parse_options _ _ _) as [l a]. reflexivity.
      - reflexivity. }
    exact (failed_start_in_fallback_mode w o m Hd Hi Hfail Hcalm).
Qed.

Lemma engine_decides_the_mode_witness :
  no_late_confirmation mac_confirming_helper /\
  let r := startDucking mac_confirming_helper no_options new in
  value_of r = true /\ isActive (state_of r) = true /\
  fallbackMode (state_of r) = false.
Proof.
  split; [reflexivity|].
  apply (engine_decides_the_mode mac_confirming_helper no_options new
           "/Applications/OpenWhispr.app/Contents/Resources/bin/macos-audio-ducker"
           engine_started); reflexivity.
Defined.

End HelperProps.

(** * The IPC handlers of the ducking manager *)

Module IpcProps.
Import Ducking Lifecycle Ipc.
Import DuckingProps LifecycleProps.

(** The answers of ["duck-audio"] and ["restore-audio"] tell the state
    they leave.  ["duck-audio"] answers [success: true] exactly when a
    manager exists and is active afterwards; ["restore-audio"] answers
    [success: true] exactly when a manager exists, and that manager is
    then inactive; without a manager both answer with an error and do
    nothing. *)
Theorem ipc_replies_tell_the_state (w : world) (o : options) (mgr : option manager) :
  let '(ducked, mgr1, _) := duck_audio w o mgr in
  let '(restored, mgr2, _) := restore_audio w mgr in
  (success ducked = match mgr1 with Some m1 => isActive m1 | None => false end) /\
  (success restored = match mgr2 with Some _ => true | None => false end) /\
  (forall m2, mgr2 = Some m2 -> isActive m2 = false) /\
  (mgr = None ->
   duck_audio w o mgr = (not_available, None, []) /\
   restore_audio w mgr = (not_available, None, [])).
Proof.
  destruct mgr as [m |]; unfold duck_audio, restore_audio.
  - pose proof (startDucking_value_is_activity w o m) as Hact.
    pose proof (stopDucking_inactive_after w m) as Hstop.
    destruct (startDucking w o m) as [[ok m1] e1].
    destruct (stopDucking w m) as [[u m2] e2].
    unfold value_of, state_of in *. cbn in *.
    split; [exact Hact|]. split; [reflexivity|]. split.
    + intros m2' H. inversion H. subst. exact Hstop.
    + discriminate.
  - split; [reflexivity|]. split; [reflexivity|]. split.
    + discriminate.
    + intros _. split; reflexivity.
Qed.

(** ["get-ducking-status"] answers with the same three fields whether or
    not a manager exists, all [false] when there is none, and leaves the
    manager as it was. *)
Theorem ipc_status_has_one_shape (w : world) (mgr : option manager) :
  let '(answer, mgr', effs) := get_ducking_status w mgr in
  keys answer = ["isActive"; "fallbackMode"; "nativeAvailable"]%string /\
  mgr' = mgr /\ effs = [] /\
  get answer "isActive" =
    Some (js_bool (match mgr with Some m => isActive m | None => false end)) /\
  get answer "fallbackMode" =
    Some (js_bool (match mgr with Some m => fallbackMode m | None => false end)) /\
  get answer "nativeAvailable" =
    Some (js_bool (match mgr with Some _ => isNativeDuckingAvailable w | None => false end)).
Proof. destruct mgr as [m |]; repeat split. Qed.

End IpcProps.

(** * Traces of the activation controller *)

Module TraceProps.
Import Controller Traces.
Import ControllerProps.

Lemma balanced_seq (s : keystate) (r1 : keystate * list command)
      (r2 : keystate * list command) :
  balanced s r1 -> balanced (fst r1) r2 ->
  balanced s (fst r2, snd r1 ++ snd r2).
Proof.
  unfold balanced. cbn [fst snd]. rewrite !count_app. lia.
Qed.

Lemma hold_timer_balanced (s : keystate) : balanced s (hold_timer s).
Proof.
  unfold balanced, hold_timer.
  destruct (0 <? keyDownTime s), (isRecording s) eqn:Hr; cbn; rewrite ?Hr; cbn; lia.
Qed.

Lemma run_callbacks_balanced (due : list Z) (s : keystate) :
  balanced s (run_callbacks due s).
Proof.
  revert s. induction due as [| d due IH]; intros s; cbn [run_callbacks].
  - unfold balanced. cbn. lia.
  - pose proof (hold_timer_balanced s) as H1.
    destruct (hold_timer s) as [s1 c1].
    pose proof (IH s1) as H2.
    destruct (run_callbacks due s1) as [s2 c2].
    exact (balanced_seq s (s1, c1) (s2, c2) H1 H2).
Qed.

Lemma fire_due_balanced (t : Z) (s : keystate) : balanced s (fire_due t s).
Proof.
  unfold fire_due.
  exact (run_callbacks_balanced _
           {| keyDownTime := keyDownTime s; isRecording := isRecording s;
              timers := List.filter (fun d => negb (is_due t d)) (timers s) |}).
Qed.

Lemma handle_balanced (src : source) (ev : key_event) (s : keystate) :
  balanced s (handle src ev s).
Proof.
  unfold balanced.
  destruct src, ev as [e | e]; cbn [handle key_down key_up];
    unfold globe_down, globe_up, win_key_down, win_key_up;
    destruct (hotkey_is_globe e), (mainWindowLive e), (is_push e),
             (controlPanelLive e), (isRecording s) eqn:Hr;
    cbn; rewrite ?Hr; cbn; lia.
Qed.

Lemma step_balanced (src : source) (ev : key_event) (s : keystate) :
  balanced s (step src ev s).
Proof.
  unfold step.
  pose proof (fire_due_balanced (event_time ev) s) as H1.
  destruct (fire_due (event_time ev) s) as [s1 c1].
  pose proof (handle_balanced src ev s1) as H2.
  destruct (handle src ev s1) as [s2 c2].
  exact (balanced_seq s (s1, c1) (s2, c2) H1 H2).
Qed.

Lemma run_balanced (src : source) (evs : list key_event) (s : keystate) :
  balanced s (run src evs s).
Proof.
  revert s. induction evs as [| ev evs IH]; intros s; cbn [run].
  - unfold balanced. cbn. lia.
  - pose proof (step_balanced src ev s) as H1.
    destruct (step src ev s) as [s1 c1].
    pose proof (IH s1) as H2.
    destruct (run src evs s1) as [s2 c2].
    exact (balanced_seq s (s1, c1) (s2, c2) H1 H2).
Qed.

(** No stop without a start.  Over any sequence of key-down and key-up
    events of a source, under any settings at each event and with the
    hold timers firing in between, the stop-dictation commands sent never
    outnumber the start-dictation commands, plus one if a recording was
    already open at the beginning; and a recording still open at the end
    is a start not yet stopped. *)
Theorem stops_never_outnumber_starts (src : source) (evs : list key_event) (s : keystate) :
  let sent := snd (run src evs s) in
  (count sendStopDictation sent + Nat.b2n (isRecording (fst (run src evs s)))
   <= count sendStartDictation sent + Nat.b2n (isRecording s))%nat /\
  (count sendStopDictation (snd (run src evs initial))
   <= count sendStartDictation (snd (run src evs initial)))%nat.
Proof.
  cbv zeta. split.
  - exact (run_balanced src evs s).
  - pose proof (run_balanced src evs initial) as H. unfold balanced in H. cbn in H. lia.
Qed.

Lemma filter_not_due (t : Z) (l : list Z) :
  (forall d, In d l -> t < d) ->
  List.filter (is_due t) l = [] /\
  List.filter (fun d => negb (is_due t d)) l = l.
Proof.
  induction l as [| d l IH]; intros Hlate; [split; reflexivity|].
  assert (Hd : is_due t d = false)
    by (apply Z.leb_gt; apply Hlate; left; reflexivity).
  destruct IH as [IH1 IH2]; [intros d' Hd'; apply Hlate; right; exact Hd'|].
  cbn. rewrite Hd. cbn. rewrite IH1, IH2. split; reflexivity.
Qed.

(** Timers that are not due stay in the queue and run nothing. *)
Lemma fire_due_none (t : Z) (s : keystate) :
  (forall d, In d (timers s) -> t < d) -> fire_due t s = (s, []).
Proof.
  intros Hlate. unfold fire_due.
  destruct (filter_not_due t (timers s) Hlate) as [-> ->].
  destruct s. reflexivity.
Qed.

(** What one turn of the timer queue does, however many callbacks are
    due: it sends one start-dictation when the key is down, no recording
    has started and some timer is due, and nothing otherwise; the
    callbacks that ran leave the queue and the others stay, in order. *)
Theorem fire_due_starts_at_most_once (t : Z) (s : keystate) :
  snd (fire_due t s) =
    (if live s && negb (isRecording s) && existsb (is_due t) (timers s)
     then [sendStartDictation] else []) /\
  timers (fst (fire_due t s)) = List.filter (fun d => negb (is_due t d)) (timers s) /\
  Forall (fun d => t < d) (timers (fst (fire_due t s))) /\
  keyDownTime (fst (fire_due t s)) = keyDownTime s.
Proof.
  unfold fire_due, live.
  assert (Hex : existsb (is_due t) (timers s) =
                match List.filter (is_due t) (timers s) with [] => false | _ => true end).
  { induction (timers s) as [| d l IH]; [reflexivity|]. cbn.
    destruct (is_due t d); [reflexivity | exact IH]. }
  assert (Hlate : Forall (fun d => t < d)
                    (List.filter (fun d => negb (is_due t d)) (timers s))).
  { apply List.Forall_forall. intros d Hd. apply List.filter_In in Hd as [_ Hd].
    apply negb_true_iff in Hd. apply Z.leb_gt in Hd. exact Hd. }
  rewrite Hex.
  set (s0 := {| keyDownTime := keyDownTime s; isRecording := isRecording s;
                timers := List.filter (fun d => negb (is_due t d)) (timers s) |}).
  destruct (List.filter (is_due t) (timers s)) as [| d due].
  - cbn. rewrite andb_false_r. repeat split. exact Hlate.
  - destruct (0 <? keyDownTime s) eqn:Hk; destruct (isRecording s) eqn:Hr.
    + rewrite run_callbacks_spent by (right; reflexivity). cbn. repeat split. exact Hlate.
    + rewrite run_callbacks_armed;
        [| cbn; apply Z.ltb_lt; exact Hk | reflexivity].
      cbn. repeat split. exact Hlate.
    + rewrite run_callbacks_spent by (right; reflexivity). cbn. repeat split. exact Hlate.
    + rewrite run_callbacks_spent by (left; cbn; apply Z.ltb_ge; exact Hk).
      cbn. repeat split. exact Hlate.
Qed.

(** A release in push mode disarms every pending timer: after the
    key-up handler has run, the session is closed and the timer queue
    sends nothing, at whatever time it is run and whatever it holds. *)
Theorem release_disarms_timers (src : source) (e : env) (s : keystate) (t : Z) :
  push_enabled src e ->
  live (fst (key_up src e s)) = false /\
  isRecording (fst (key_up src e s)) = false /\
  snd (fire_due t (fst (key_up src e s))) = [].
Proof.
  intros [Hp Hsrc].
  assert (Hup : keyDownTime (fst (key_up src e s)) = 0 /\
                isRecording (fst (key_up src e s)) = false).
  { destruct src; cbn [key_up] in *.
    - destruct Hsrc as [Hg _]. unfold globe_up. rewrite Hg, Hp.
      destruct (isRecording s) eqn:Hr; cbn; auto.
    - unfold win_key_up. rewrite Hsrc, Hp. cbn. auto. }
  destruct Hup as [Hk Hr].
  split; [unfold live; rewrite Hk; reflexivity|]. split; [exact Hr|].
  unfold fire_due. rewrite run_callbacks_spent; [reflexivity|].
  left. cbn. rewrite Hk. lia.
Qed.

Lemma release_disarms_timers_witness :
  push_enabled Globe (push_env 1050) /\
  snd (fire_due 1150 (fst (key_up Globe (push_env 1050)
         {| keyDownTime := 1000; isRecording := false; timers := [1150] |}))) = [].
Proof.
  split; [repeat split|].
  apply (release_disarms_timers Globe (push_env 1050)
           {| keyDownTime := 1000; isRecording := false; timers := [1150] |} 1150).
  repeat split.
Defined.

(** A tap in push mode: the key is released before the hold threshold
    and no timer of an earlier press comes due meanwhile.  No start or
    stop is sent on either source; the Windows handler sends its one
    hide-panel; the session is closed, and the timer of this press is
    still queued, never cancelled. *)
Theorem push_tap_sends_no_dictation (src : source) (ed eu : env) (s : keystate) :
  push_enabled src ed -> push_enabled src eu ->
  now eu < now ed + hold_threshold src ->
  (forall d, In d (timers s) -> now eu < d) ->
  let r := press_release src ed eu s in
  dictation_commands (snd r) = [] /\
  (src = WindowsKey -> count hideDictationPanel (snd r) = 1%nat) /\
  fst r = {| keyDownTime := 0; isRecording := false;
             timers := timers s ++ [now ed + hold_threshold src] |}.
Proof.
  intros Hd Hu Hshort Hstale. cbv zeta. unfold press_release.
  destruct (key_down_push src ed s Hd) as (pre & -> & Hpre & Hhide).
  unfold step. cbn [event_time handle].
  rewrite fire_due_none.
  2:{ cbn [timers]. intros d Hin. apply in_app_or in Hin as [Hin | [<- | []]]; auto. }
  destruct Hu as [Hp Hsrc]. destruct src; cbn [key_up] in *.
  - destruct Hsrc as [Hg _]. unfold globe_up. rewrite Hg, Hp.
    cbn [fst snd isRecording timers keyDownTime].
    rewrite !dictation_commands_app, Hpre. repeat split. discriminate.
  - unfold win_key_up. rewrite Hsrc, Hp.
    cbn [fst snd isRecording timers keyDownTime].
    rewrite !dictation_commands_app, Hpre. split; [reflexivity|]. split; [| reflexivity].
    intros _. rewrite !count_app, Hhide. reflexivity.
Qed.

Lemma push_tap_sends_no_dictation_witness :
  let r := press_release WindowsKey (push_env 1000) (push_env 1050) initial in
  dictation_commands (snd r) = [] /\
  (WindowsKey = WindowsKey -> count hideDictationPanel (snd r) = 1%nat) /\
  fst r = {| keyDownTime := 0; isRecording := false;
             timers := timers initial ++ [now (push_env 1000) + hold_threshold WindowsKey] |}.
Proof.
  apply (push_tap_sends_no_dictation WindowsKey (push_env 1000) (push_env 1050) initial).
  - repeat split.
  - repeat split.
  - reflexivity.
  - intros d [].
Defined.

(** Outside push mode the Globe key is a toggle and the Windows listener
    is mute.  With no session open, a press and release of the Globe key
    sends exactly one toggle-dictation, at key-down, and no start or
    stop, and leaves the press time, the recording flag and the timer
    count as they were; the Windows handlers send nothing at all. *)
Theorem tap_mode_press_release (ed eu : env) (s : keystate) :
  tap_enabled ed -> tap_enabled eu -> live s = false ->
  let g := press_release Globe ed eu s in
  count toggle_dictation (snd g) = 1%nat /\
  dictation_commands (snd g) = [] /\
  keyDownTime (fst g) = keyDownTime s /\ isRecording (fst g) = isRecording s /\
  (forall d, In d (timers (fst g)) -> In d (timers s)) /\
  snd (press_release WindowsKey ed eu s) = [].
Proof.
  intros (Hpd & Hgd & Hmd) (Hpu & Hgu & Hmu) Hidle. cbv zeta.
  assert (Hfire : forall t, fire_due t s =
            ({| keyDownTime := keyDownTime s; isRecording := isRecording s;
                timers := List.filter (fun d => negb (is_due t d)) (timers s) |}, [])).
  { intros t. unfold fire_due. apply run_callbacks_spent. left. cbn.
    unfold live in Hidle. apply Z.ltb_ge. exact Hidle. }
  unfold press_release, step. cbn [key_down key_up handle event_time].
  unfold globe_down, win_key_down. rewrite Hgd, Hmd, Hpd. rewrite Hfire.
  unfold globe_up, win_key_up. rewrite Hgu, Hmu, Hpu. cbn.
  repeat split.
  - destruct (controlPanelLive ed); reflexivity.
  - destruct (controlPanelLive ed); reflexivity.
  - intros d Hin. apply List.filter_In in Hin as [Hin _]. exact Hin.
Qed.

Lemma tap_mode_press_release_witness :
  let tap_env t := {| mainWindowLive := true; controlPanelLive := true;
                      currentHotkey := Some "GLOBE"%string; activationMode := "tap";
                      now := t |} in
  count toggle_dictation (snd (press_release Globe (tap_env 1000) (tap_env 1400) initial))
    = 1%nat /\
  snd (press_release WindowsKey (tap_env 1000) (tap_env 1400) initial) = [].
Proof.
  cbv zeta.
  destruct (tap_mode_press_release
              {| mainWindowLive := true; controlPanelLive := true;
                 currentHotkey := Some "GLOBE"%string; activationMode := "tap"; now := 1000 |}
              {| mainWindowLive := true; controlPanelLive := true;
                 currentHotkey := Some "GLOBE"%string; activationMode := "tap"; now := 1400 |}
              initial)
    as (Htoggle & _ & _ & _ & _ & Hwin).
  - repeat split.
  - repeat split.
  - reflexivity.
  - split; [exact Htoggle | exact Hwin].
Defined.

End TraceProps.

(** * Start-up glue *)

Module StartupProps.
Import Startup.

Lemma app_nil_r_string (s : string) : s +:+ EmptyString = s.
Proof.
  induction s as [| c s IH]; [reflexivity|].
  change (String c (s +:+ EmptyString) = String c s). f_equal. exact IH.
Qed.

Lemma prefix_empty (s : string) : String.prefix EmptyString s = true.
Proof. destruct s; reflexivity. Qed.

Lemma prefix_append (p s : string) : String.prefix p (p +:+ s) = true.
Proof.
  induction p as [| c p IH].
  - apply prefix_empty.
  - change (String c p +:+ s) with (String c (p +:+ s)). cbn [String.prefix].
    destruct (Ascii.ascii_dec c c) as [_ | Hne]; [exact IH | contradiction].
Qed.

Lemma prefix_append_l (n a b : string) :
  String.prefix n a = true -> String.prefix n (a +:+ b) = true.
Proof.
  revert n. induction a as [| c a IH]; intros n Hn.
  - destruct n; [apply prefix_empty | discriminate Hn].
  - destruct n as [| c' n]; [reflexivity|].
    change (String c a +:+ b) with (String c (a +:+ b)).
    cbn [String.prefix] in *.
    destruct (Ascii.ascii_dec c' c); [apply IH; exact Hn | discriminate Hn].
Qed.

Lemma includes_append_r (a b n : string) :
  Ducking.includes b n = true -> Ducking.includes (a +:+ b) n = true.
Proof.
  intros Hb. induction a as [| c a IH]; [exact Hb|].
  change (String c a +:+ b) with (String c (a +:+ b)).
  cbn [Ducking.includes]. rewrite IH. apply orb_true_r.
Qed.

Lemma includes_append_l (a b n : string) :
  Ducking.includes a n = true -> Ducking.includes (a +:+ b) n = true.
Proof.
  induction a as [| c a IH]; intros Ha.
  - cbn in Ha. rewrite orb_false_r in Ha.
    destruct n; [| discriminate Ha].
    destruct b; reflexivity.
  - cbn [Ducking.includes] in Ha. apply orb_true_iff in Ha as [Hp | Hrest].
    + change (String c a +:+ b) with (String c (a +:+ b)).
      cbn [Ducking.includes].
      change (String c (a +:+ b)) with (String c a +:+ b).
      rewrite (prefix_append_l n (String c a) b Hp). reflexivity.
    + change (String c a +:+ b) with (String c (a +:+ b)).
      cbn [Ducking.includes]. rewrite (IH Hrest). apply orb_true_r.
Qed.

Lemma includes_self (s : string) : Ducking.includes s s = true.
Proof.
  pose proof (prefix_append s EmptyString) as Hp.
  rewrite app_nil_r_string in Hp.
  destruct s; cbn [Ducking.includes]; rewrite Hp; reflexivity.
Qed.

Lemma includes_join (sep p : string) (l : list string) :
  In p l -> Ducking.includes (join sep l) p = true.
Proof.
  induction l as [| x l IH]; intros Hin; [contradiction|].
  destruct l as [| y l].
  - destruct Hin as [<- | []]. cbn [join]. apply includes_self.
  - change (join sep (x :: y :: l)) with (x +:+ sep +:+ join sep (y :: l)).
    destruct Hin as [<- | Hin].
    + apply includes_append_l. apply includes_self.
    + apply includes_append_r. apply includes_append_r. apply IH. exact Hin.
Qed.

Lemma filter_all_false {A : Type} (f : A -> bool) (l : list A) :
  (forall x, In x l -> f x = false) -> List.filter f l = [].
Proof.
  induction l as [| x l IH]; intros H; [reflexivity|]. cbn.
  rewrite (H x) by (left; reflexivity). apply IH. intros y Hy. apply H. right. exact Hy.
Qed.

(** Whatever the branch taken, every common path occurs in the value
    [setupProductionPath] leaves in [PATH] on a production macOS. *)
Lemma covered_after (node_env PATH : option string) (p : string) :
  match node_env with Some v => String.eqb v "development" | None => false end = false ->
  In p commonPaths ->
  Ducking.includes (or_empty (setupProductionPath "darwin" node_env PATH)) p = true.
Proof.
  intros Hprod Hin. unfold setupProductionPath. rewrite Hprod. cbn [String.eqb Ascii.eqb Bool.eqb andb negb].
  destruct (Ducking.includes (or_empty PATH) p) eqn:Hcur.
  - destruct (0 <? length (pathsToAdd (or_empty PATH)))%nat; [| exact Hcur].
    cbn [or_empty]. apply includes_append_l. exact Hcur.
  - assert (Hadd : In p (pathsToAdd (or_empty PATH))).
    { unfold pathsToAdd. apply List.filter_In. split; [exact Hin|]. rewrite Hcur. reflexivity. }
    destruct (pathsToAdd (or_empty PATH)) as [| x l] eqn:Hl; [contradiction|].
    cbn [length Nat.ltb Nat.leb or_empty].
    apply includes_append_r. apply includes_append_r. apply includes_join. exact Hadd.
Qed.

(** On a production macOS, after [setupProductionPath] every common
    directory occurs in [PATH], and the old value of [PATH] is kept as
    the beginning of the new one; off macOS, or in development, [PATH]
    is not touched. *)
Theorem setupProductionPath_covers (platform : string) (node_env PATH : option string) :
  let after := setupProductionPath platform node_env PATH in
  (String.eqb platform "darwin" = true ->
   match node_env with Some v => String.eqb v "development" | None => false end = false ->
   (forall p, In p commonPaths -> Ducking.includes (or_empty after) p = true) /\
   String.prefix (or_empty PATH) (or_empty after) = true) /\
  (String.eqb platform "darwin" = false \/
   node_env = Some "development"%string -> after = PATH).
Proof.
  cbv zeta. split.
  - intros Hd Hprod. apply String.eqb_eq in Hd. subst platform. split.
    + intros p Hin. apply covered_after; assumption.
    + unfold setupProductionPath. rewrite Hprod.
      cbn [String.eqb Ascii.eqb Bool.eqb andb negb].
      destruct (0 <? length (pathsToAdd (or_empty PATH)))%nat.
      * cbn [or_empty]. apply prefix_append.
      * pose proof (prefix_append (or_empty PATH) EmptyString) as Hp.
        rewrite app_nil_r_string in Hp. exact Hp.
  - intros [Hd | ->]; unfold setupProductionPath.
    + rewrite Hd. reflexivity.
    + cbn [String.eqb Ascii.eqb Bool.eqb negb]. rewrite andb_false_r. reflexivity.
Qed.

Lemma setupProductionPath_covers_witness :
  (forall p, In p commonPaths ->
     Ducking.includes (or_empty (setupProductionPath "darwin" None (Some "/usr/bin:/bin"%string))) p
       = true) /\
  String.prefix "/usr/bin:/bin"
    (or_empty (setupProductionPath "darwin" None (Some "/usr/bin:/bin"%string))) = true.
Proof.
  destruct (setupProductionPath_covers "darwin" None (Some "/usr/bin:/bin"%string))
    as [Hcover _].
  apply Hcover; reflexivity.
Defined.

(** [setupProductionPath] is idempotent: run on its own result it
    changes nothing, on every platform and for every [PATH], set or not. *)
Theorem setupProductionPath_idempotent (platform : string) (node_env PATH : option string) :
  setupProductionPath platform node_env (setupProductionPath platform node_env PATH) =
  setupProductionPath platform node_env PATH.
Proof.
  destruct (String.eqb platform "darwin") eqn:Hd.
  2:{ unfold setupProductionPath. rewrite Hd. reflexivity. }
  destruct (match node_env with Some v => String.eqb v "development" | None => false end)
    eqn:Hprod.
  { unfold setupProductionPath. rewrite Hd, Hprod. reflexivity. }
  apply String.eqb_eq in Hd. subst platform.
  assert (Hnone : pathsToAdd (or_empty (setupProductionPath "darwin" node_env PATH)) = []).
  { unfold pathsToAdd. apply filter_all_false. intros p Hin.
    rewrite (covered_after node_env PATH p Hprod Hin). reflexivity. }
  unfold setupProductionPath at 1. rewrite Hprod.
  cbn [String.eqb Ascii.eqb Bool.eqb andb negb]. rewrite Hnone. reflexivity.
Qed.

(** The Globe listener's failure is reported once.  Over any series of
    error events the handler shows one box for the first and none for the
    rest; once the alert has been shown it shows none. *)
Theorem globe_alert_shown_once
    (development : bool) (err : option string) (rest : list (option string)) :
  globe_errors development (err :: rest) false =
    (true, snd (globe_error development err false)) /\
  length (snd (globe_errors development (err :: rest) false)) = 1%nat /\
  globe_errors development (err :: rest) true = (true, []) /\
  box_detail (hd {| box_type := ""; box_title := ""; box_message := ""; box_detail := "" |}
                 (snd (globe_errors development (err :: rest) false))) =
    join (Ducking.LF +:+ Ducking.LF) (detailLines development err).
Proof.
  assert (Hshown : forall errors, globe_errors development errors true = (true, [])).
  { induction errors as [| e errors IH]; [reflexivity|].
    cbn [globe_errors globe_error]. rewrite IH. reflexivity. }
  assert (Hfirst : globe_errors development (err :: rest) false =
                   (true, snd (globe_error development err false))).
  { cbn [globe_errors]. unfold globe_error. rewrite Hshown. reflexivity. }
  rewrite Hfirst, Hshown. repeat split.
Qed.

End StartupProps.

(** * The Windows key listener's life cycle *)

Module ListenerProps.
Import Listener.

Lemma isValidHotkey_spec (h : string) :
  isValidHotkey (Some h) = true <-> h <> EmptyString /\ h <> "GLOBE"%string.
Proof.
  unfold isValidHotkey, truthy.
  destruct h as [| c h]; cbn [negb].
  - split; [discriminate | intros [H _]; contradiction].
  - destruct (String.eqb (String c h) "GLOBE") eqn:Hg.
    + apply String.eqb_eq in Hg. split; [discriminate | intros [_ H]; contradiction].
    + apply String.eqb_neq in Hg. split; [intros _; split; [discriminate | exact Hg] | reflexivity].
Qed.

Lemma not_globe_spec (hotkey : option string) (h : string) :
  hotkey = Some h -> not_globe hotkey = true -> h <> EmptyString /\ h <> "GLOBE"%string.
Proof.
  intros -> H. unfold not_globe in H.
  apply andb_true_iff in H as [Ht Hn].
  apply negb_true_iff in Hn. apply String.eqb_neq in Hn.
  split; [| exact Hn]. intros ->. discriminate Ht.
Qed.

(** The key listener is only ever started in push mode and for a usable
    hotkey.  In each of the four places that start it (the delayed start
    after launch, a change of activation mode, a change of hotkey, and
    the end of hotkey capture) a start is issued only when the mode read
    or received is "push", and the hotkey handed over is the one the
    handler was given, never missing, empty or "GLOBE". *)
Theorem listener_started_only_in_push_mode (h : string) :
  (forall live mode current,
     In (listener_start h) (startWindowsKeyListener live mode current) ->
     live = true /\ is_push_mode mode = true /\ current = Some h /\
     h <> EmptyString /\ h <> "GLOBE"%string) /\
  (forall mode current,
     In (listener_start h) (activation_mode_changed mode current) ->
     is_push_mode mode = true /\ current = Some h /\
     h <> EmptyString /\ h <> "GLOBE"%string) /\
  (forall hotkey live mode,
     In (listener_start h) (hotkey_changed hotkey live mode) ->
     live = true /\ is_push_mode mode = true /\ hotkey = Some h /\
     h <> EmptyString /\ h <> "GLOBE"%string) /\
  (forall e enabled newHotkey,
     In (listener_start h) (set_hotkey_listening_mode e enabled newHotkey) ->
     enabled = false /\ is_win32 e = true /\ has_windowsKeyManager e = true /\
     is_push_mode (activationMode e) = true /\
     effectiveHotkey e enabled newHotkey = Some h /\
     h <> EmptyString /\ h <> "GLOBE"%string).
Proof.
  split; [| split; [| split]].
  - intros live mode current. unfold startWindowsKeyListener.
    destruct live; cbn [negb]; [| intros []].
    destruct (is_push_mode mode); [| intros []].
    destruct current as [h' |]; [| intros []].
    destruct (isValidHotkey (Some h')) eqn:Hv; [| intros []].
    intros [Heq | []]. inversion Heq. subst h'.
    apply isValidHotkey_spec in Hv. tauto.
  - intros mode current. unfold activation_mode_changed.
    destruct (is_push_mode mode).
    + destruct current as [h' |]; [| intros []].
      destruct (isValidHotkey (Some h')) eqn:Hv; [| intros []].
      intros [Heq | []]. inversion Heq. subst h'.
      apply isValidHotkey_spec in Hv. tauto.
    + intros [Heq | []]. discriminate Heq.
  - intros hotkey live mode. unfold hotkey_changed.
    destruct live; cbn [negb]; [| intros []].
    destruct (is_push_mode mode); [| intros []].
    intros [Heq | Hin]; [discriminate Heq|].
    destruct hotkey as [h' |]; [| destruct Hin].
    destruct (isValidHotkey (Some h')) eqn:Hv; [| destruct Hin].
    destruct Hin as [Heq | []]. inversion Heq. subst h'.
    apply isValidHotkey_spec in Hv. tauto.
  - intros e enabled newHotkey. unfold set_hotkey_listening_mode.
    intros [Heq | Hin]; [discriminate Heq|].
    destruct enabled.
    + exfalso.
      destruct (not_globe (getCurrentHotkey e)), (getCurrentHotkey e),
               (is_win32 e && has_windowsKeyManager e),
               (isUsingGnome e && has_gnomeManager e);
        cbn in Hin; repeat destruct Hin as [Hin | Hin]; try discriminate Hin; contradiction.
    + apply in_app_or in Hin as [Hin | Hin].
      { exfalso.
        destruct (not_globe (effectiveHotkey e false newHotkey)); [| destruct Hin].
        destruct (effectiveHotkey e false newHotkey) as [h' |]; [| destruct Hin].
        cbn in Hin. destruct (isRegistered e h'); cbn in Hin;
          repeat destruct Hin as [Hin | Hin]; try discriminate Hin; contradiction. }
      apply in_app_or in Hin as [Hin | Hin].
      2:{ exfalso.
          destruct (isUsingGnome e && has_gnomeManager e &&
                    truthy (effectiveHotkey e false newHotkey)); [| destruct Hin].
          destruct (effectiveHotkey e false newHotkey) as [h' |]; [| destruct Hin].
          cbn in Hin. destruct (registerKeybinding_ok e); cbn in Hin;
            repeat destruct Hin as [Hin | Hin]; try discriminate Hin; contradiction. }
      destruct (is_win32 e) eqn:Hw; cbn [andb] in Hin; [| destruct Hin].
      destruct (has_windowsKeyManager e) eqn:Hm; [| destruct Hin].
      destruct (is_push_mode (activationMode e)) eqn:Hp; cbn [andb] in Hin; [| destruct Hin].
      destruct (not_globe (effectiveHotkey e false newHotkey)) eqn:Hng; [| destruct Hin].
      destruct (effectiveHotkey e false newHotkey) as [h' |] eqn:Heff; [| destruct Hin].
      destruct Hin as [Heq | []]. inversion Heq. subst h'.
      destruct (not_globe_spec (Some h) h eq_refl Hng) as [Hne Hng'].
      repeat split; assumption.
Qed.


End ListenerProps.

(** * More on the teardown *)

Module QuitProps.
Import Teardown.

(** Quitting is safe at any point of start-up.  Whatever managers exist,
    the handler unregisters the shortcuts exactly once, through the
    hotkey manager when there is one and directly otherwise; it stops or
    cleans up exactly the managers that exist; and it always ends by
    stopping the model server. *)
Theorem will_quit_stops_what_exists (a : app_state) :
  let acts := snd (fst (will_quit a)) in
  (count_occ action_eq_dec acts hotkeyManager_unregisterAll +
   count_occ action_eq_dec acts globalShortcut_unregisterAll = 1)%nat /\
  (In hotkeyManager_unregisterAll acts <-> hotkeyManager a = true) /\
  (In globeKeyManager_stop acts <-> globeKeyManager a = true) /\
  (In windowsKeyManager_stop acts <-> windowsKeyManager a = true) /\
  (In updateManager_cleanup acts <-> updateManager a = true) /\
  (In whisperManager_stopServer acts <-> whisperManager a = true) /\
  (In parakeetManager_stopServer acts <-> parakeetManager a = true) /\
  last acts = Some modelManager_stopServer /\
  NoDup acts.
Proof.
  cbv zeta. unfold will_quit. cbn [fst snd].
  destruct (hotkeyManager a), (globeKeyManager a), (windowsKeyManager a),
           (updateManager a), (whisperManager a), (parakeetManager a); cbn.
  all: split; [reflexivity|].
  all: repeat (split;
         [first [ solve [split; [intros _; reflexivity | intros _; cbn; tauto]]
                | solve [split; [cbn; intuition discriminate | discriminate]] ] |]).
  all: split; [reflexivity|].
  all: apply (bool_decide_unpack _); vm_compute; exact I.
Qed.

End QuitProps.
